(** * mincepie: the master-worker MapReduce engine of [mincepie.py]

    A shallow embedding of the task manager, the wire protocol, the worker
    executor and the master channels of [src/mincepie.py], followed by the
    properties of the specification that were checked against it.

    Python objects are mutable and methods may raise; both are made explicit
    by a state-and-exception monad [Py].  A raised exception keeps the
    mutations done before the [raise], as in Python. *)

From Stdlib Require Import Ascii String Sorted.
From stdpp Require Import gmap strings list fin_maps pretty.

Open Scope string_scope.
Open Scope list_scope.

(** ** Python exceptions and the state-and-exception monad *)

Inductive exn : Type :=
  | KeyError
  | ValueError
  | AttributeError
  | TypeError
  | IndexError
  | SystemExit
  | UnpicklingError
  | UserError (msg : string).

Global Instance exn_eq_dec : EqDecision exn.
Proof. solve_decision. Defined.

Inductive outcome (A : Type) : Type :=
  | Ret (a : A)
  | Raise (e : exn).
Arguments Ret {A} a.
Arguments Raise {A} e.

Definition Py (S A : Type) : Type := S → outcome A * S.

Definition ret {S A} (a : A) : Py S A := λ s, (Ret a, s).
Definition raise {S A} (e : exn) : Py S A := λ s, (Raise e, s).
Definition bind {S A B} (m : Py S A) (k : A → Py S B) : Py S B :=
  λ s, match m s with
       | (Ret a, s') => k a s'
       | (Raise e, s') => (Raise e, s')
       end.
Definition get {S} : Py S S := λ s, (Ret s, s).
Definition modify {S} (f : S → S) : Py S unit := λ s, (Ret tt, f s).

(** [try: m except E: h] for the exception class selected by [catch]. *)
Definition try_except {S A} (m : Py S A) (catch : exn → bool) (h : Py S A)
  : Py S A :=
  λ s, match m s with
       | (Ret a, s') => (Ret a, s')
       | (Raise e, s') => if catch e then h s' else (Raise e, s')
       end.

(** Running a computation of a component inside a larger state. *)
Definition zoom {S T A} (proj : T → S) (upd : S → T → T) (m : Py S A)
  : Py T A :=
  λ t, let '(r, s') := m (proj t) in (r, upd s' t).

Declare Scope py_scope.
Delimit Scope py_scope with py.
Notation "'do' x <- m ; k" := (bind m (λ x, k))
  (at level 10, x name, m at level 100, k at level 200) : py_scope.
Notation "'exec' m ; k" := (bind m (λ _, k))
  (at level 10, m at level 100, k at level 200) : py_scope.
Open Scope py_scope.

Definition state_of {S A} (r : outcome A * S) : S := r.2.
Definition value_of {S A} (r : outcome A * S) : outcome A := r.1.

Definition is_KeyError (e : exn) : bool :=
  match e with KeyError => true | _ => false end.

(** ** Constants of the module *)

Definition SEPARATOR : string := ":".
Definition TERMINATOR : string := String (Ascii.ascii_of_nat 10) "".

Module COMMAND.
Definition challenge : string := "challenge".
Definition auth : string := "auth".
Definition disconnect : string := "disconnect".
Definition map : string := "map".
Definition reduce : string := "reduce".
Definition mapdone : string := "mapdone".
Definition reducedone : string := "reducedone".
End COMMAND.

Inductive TASK : Type := START | MAPPING | REDUCING | FINISHED.

Global Instance TASK_eq_dec : EqDecision TASK.
Proof. solve_decision. Defined.

(** Position of a phase in the order [START, MAPPING, REDUCING, FINISHED]. *)
Definition phase_rank (p : TASK) : nat :=
  match p with START => 0 | MAPPING => 1 | REDUCING => 2 | FINISHED => 3 end.

(** [random.choice(seq)]: the draw [rnd] of the generator selects an index;
    an empty sequence raises [IndexError]. *)
Definition random_choice {S A} (rnd : nat) (seq : list A) : Py S A :=
  match seq !! (rnd `mod` length seq) with
  | Some x => ret x
  | None => raise IndexError
  end.

(** [for x in l: body(x)]. *)
Fixpoint for_each {S A} (l : list A) (body : A → Py S unit) : Py S unit :=
  match l with
  | [] => ret tt
  | x :: l' => exec body x; for_each l' body
  end.

(** [d[k]] on a dictionary. *)
Definition getitem {S A} `{Countable Key} (d : gmap Key A) (k : Key) : Py S A :=
  match d !! k with
  | Some x => ret x
  | None => raise KeyError
  end.

(** ** The task manager *)

Section TaskManager.
Context {K V K2 V2 R : Type}.
Context `{Countable K, Countable K2}.

(** What travels as pickled data: the two task tuples built by
    [next_task] and the two report tuples built by the worker. *)
Inductive payload : Type :=
  | MapData (k : K) (v : V)
  | ReduceData (k : K2) (vs : list V2)
  | MapResult (k : K) (res : gmap K2 (list V2))
  | ReduceResult (k : K2) (r : R).

(** [Server]: of the dispatcher only whether its listening socket is
    still open matters; [Server.handle_close] closes it. *)
Record Server : Type := { listening : bool }.

Definition Server_handle_close (srv : Server) : Server :=
  {| listening := false |}.

(** The attributes of a [TaskManager].  Those that [__init__] does not
    create are [None] until [next_task] assigns them; reading one that is
    [None] raises [AttributeError].  Iterators are the list of the items
    still to be produced. *)
Record TaskManager : Type := {
  datasource : gmap K V;
  server : Server;
  state : TASK;
  map_iter : option (list K);
  working_maps : option (gset K);
  map_results : option (gmap K2 (list V2));
  reduce_iter : option (list (K2 * list V2));
  working_reduces : option (gset K2);
  results : option (gmap K2 R)
}.

Definition TaskManager_init (ds : gmap K V) (srv : Server) : TaskManager :=
  {| datasource := ds; server := srv; state := START;
     map_iter := None; working_maps := None; map_results := None;
     reduce_iter := None; working_reduces := None; results := None |}.

Definition set_server x (tm : TaskManager) :=
  {| datasource := datasource tm; server := x; state := state tm;
     map_iter := map_iter tm; working_maps := working_maps tm;
     map_results := map_results tm; reduce_iter := reduce_iter tm;
     working_reduces := working_reduces tm; results := results tm |}.
Definition set_state x (tm : TaskManager) :=
  {| datasource := datasource tm; server := server tm; state := x;
     map_iter := map_iter tm; working_maps := working_maps tm;
     map_results := map_results tm; reduce_iter := reduce_iter tm;
     working_reduces := working_reduces tm; results := results tm |}.
Definition set_map_iter x (tm : TaskManager) :=
  {| datasource := datasource tm; server := server tm; state := state tm;
     map_iter := Some x; working_maps := working_maps tm;
     map_results := map_results tm; reduce_iter := reduce_iter tm;
     working_reduces := working_reduces tm; results := results tm |}.
Definition set_working_maps x (tm : TaskManager) :=
  {| datasource := datasource tm; server := server tm; state := state tm;
     map_iter := map_iter tm; working_maps := Some x;
     map_results := map_results tm; reduce_iter := reduce_iter tm;
     working_reduces := working_reduces tm; results := results tm |}.
Definition set_map_results x (tm : TaskManager) :=
  {| datasource := datasource tm; server := server tm; state := state tm;
     map_iter := map_iter tm; working_maps := working_maps tm;
     map_results := Some x; reduce_iter := reduce_iter tm;
     working_reduces := working_reduces tm; results := results tm |}.
Definition set_reduce_iter x (tm : TaskManager) :=
  {| datasource := datasource tm; server := server tm; state := state tm;
     map_iter := map_iter tm; working_maps := working_maps tm;
     map_results := map_results tm; reduce_iter := Some x;
     working_reduces := working_reduces tm; results := results tm |}.
Definition set_working_reduces x (tm : TaskManager) :=
  {| datasource := datasource tm; server := server tm; state := state tm;
     map_iter := map_iter tm; working_maps := working_maps tm;
     map_results := map_results tm; reduce_iter := reduce_iter tm;
     working_reduces := Some x; results := results tm |}.
Definition set_results x (tm : TaskManager) :=
  {| datasource := datasource tm; server := server tm; state := state tm;
     map_iter := map_iter tm; working_maps := working_maps tm;
     map_results := map_results tm; reduce_iter := reduce_iter tm;
     working_reduces := working_reduces tm; results := Some x |}.

(** Reading [self.<field>]. *)
Definition attr {A} (field : TaskManager → option A) : Py TaskManager A :=
  λ tm, match field tm with
        | Some x => (Ret x, tm)
        | None => (Raise AttributeError, tm)
        end.

(** [iter(self.datasource)]: the keys, in the order of the dictionary. *)
Definition iter_keys (ds : gmap K V) : list K := (map_to_list ds).*1.

(** A block of [next_task] either returns a [(command, data)] pair or
    falls through to the next [if] ([None]). *)
Definition reply : Type := string * option payload.

Definition next_task_START : Py TaskManager unit :=
  do tm <- get;
  if decide (state tm = START) then
    exec modify (set_map_iter (iter_keys (datasource tm)));
    exec modify (set_working_maps ∅);
    exec modify (set_map_results ∅);
    modify (set_state MAPPING)
  else ret tt.

Definition next_task_MAPPING (rnd : nat) : Py TaskManager (option reply) :=
  do tm <- get;
  if decide (state tm = MAPPING) then
    do it <- attr map_iter;
    match it with
    | map_key :: rest =>
        exec modify (set_map_iter rest);
        do w <- attr working_maps;
        exec modify (set_working_maps ({[map_key]} ∪ w));
        do v <- getitem (datasource tm) map_key;
        ret (Some (COMMAND.map, Some (MapData map_key v)))
    | [] =>
        (* except StopIteration *)
        do w <- attr working_maps;
        if decide (0 < size w) then
          do key <- random_choice rnd (elements w);
          do v <- getitem (datasource tm) key;
          ret (Some (COMMAND.map, Some (MapData key v)))
        else
          exec modify (set_state REDUCING);
          do mr <- attr map_results;
          exec modify (set_reduce_iter (map_to_list mr));
          exec modify (set_working_reduces ∅);
          exec modify (set_results ∅);
          ret None
    end
  else ret None.

Definition next_task_REDUCING (rnd : nat) : Py TaskManager (option reply) :=
  do tm <- get;
  if decide (state tm = REDUCING) then
    do it <- attr reduce_iter;
    match it with
    | reduce_item :: rest =>
        exec modify (set_reduce_iter rest);
        do w <- attr working_reduces;
        exec modify (set_working_reduces ({[reduce_item.1]} ∪ w));
        ret (Some (COMMAND.reduce,
                   Some (ReduceData reduce_item.1 reduce_item.2)))
    | [] =>
        (* except StopIteration *)
        do w <- attr working_reduces;
        if decide (0 < size w) then
          do key <- random_choice rnd (elements w);
          do mr <- attr map_results;
          do vs <- getitem mr key;
          ret (Some (COMMAND.reduce, Some (ReduceData key vs)))
        else
          exec modify (set_state FINISHED);
          ret None
    end
  else ret None.

Definition next_task_FINISHED : Py TaskManager (option reply) :=
  do tm <- get;
  if decide (state tm = FINISHED) then
    exec modify (λ tm, set_server (Server_handle_close (server tm)) tm);
    ret (Some (COMMAND.disconnect, None))
  else ret None.

(** [TaskManager.next_task].  The channel argument is not used by the
    method and is left out; [rnd] is the draw [random.choice] takes if it
    is called.  [None] is Python's implicit [return None]. *)
Definition next_task (rnd : nat) : Py TaskManager (option reply) :=
  exec next_task_START;
  do r <- next_task_MAPPING rnd;
  match r with
  | Some t => ret (Some t)
  | None =>
      do r <- next_task_REDUCING rnd;
      match r with
      | Some t => ret (Some t)
      | None => next_task_FINISHED
      end
  end.

(** The loop of [map_done]: for every [(key, values)] of the report,
    create the entry when it is missing, then extend it. *)
Definition extend_results (mr : gmap K2 (list V2))
    (item : K2 * list V2) : gmap K2 (list V2) :=
  let mr' := match mr !! item.1 with
             | None => <[item.1 := []]> mr
             | Some _ => mr
             end in
  <[item.1 := default [] (mr' !! item.1) ++ item.2]> mr'.

(** [TaskManager.map_done(data)] with [data = (data0, data1)]. *)
Definition map_done (data : K * gmap K2 (list V2)) : Py TaskManager unit :=
  do w <- attr working_maps;
  if decide (data.1 ∈ w) then
    exec for_each (map_to_list data.2)
           (λ item,
              do mr <- attr map_results;
              modify (set_map_results (extend_results mr item)));
    do w <- attr working_maps;
    modify (set_working_maps (w ∖ {[data.1]}))
  else ret tt.

(** [TaskManager.reduce_done(data)]. *)
Definition reduce_done (data : K2 * R) : Py TaskManager unit :=
  do w <- attr working_reduces;
  if decide (data.1 ∈ w) then
    do res <- attr results;
    exec modify (set_results (<[data.1 := data.2]> res));
    do w <- attr working_reduces;
    modify (set_working_reduces (w ∖ {[data.1]}))
  else ret tt.

(** The three entry points of the task manager, as the channels call
    them, and the phases a sequence of calls goes through. *)
Inductive call : Type :=
  | NextTask (rnd : nat)
  | MapDone (data : K * gmap K2 (list V2))
  | ReduceDone (data : K2 * R).

Definition do_call c (tm : TaskManager) : TaskManager :=
  match c with
  | NextTask rnd => state_of (next_task rnd tm)
  | MapDone data => state_of (map_done data tm)
  | ReduceDone data => state_of (reduce_done data tm)
  end.

Fixpoint phase_trace calls (tm : TaskManager) : list TASK :=
  match calls with
  | [] => [state tm]
  | c :: calls' => state tm :: phase_trace calls' (do_call c tm)
  end.

Definition do_calls calls (tm : TaskManager) : TaskManager :=
  foldl (λ tm c, do_call c tm) tm calls.

(** What holds of the attributes once the map phase has been entered:
    they exist, and the keys still to be issued and those in flight are
    keys of the dataset. *)
Definition map_side_ok (tm : TaskManager) : Prop :=
  ∃ rest w mr,
    map_iter tm = Some rest ∧ working_maps tm = Some w
    ∧ map_results tm = Some mr
    ∧ (∀ k, k ∈ rest → is_Some (datasource tm !! k))
    ∧ (∀ k, k ∈ w → is_Some (datasource tm !! k)).

(** What holds once the reduce phase has been entered: the map side is
    exhausted and empty, the reduce attributes exist, and the keys in
    flight are keys of the intermediate results. *)
Definition reduce_side_ok (tm : TaskManager) : Prop :=
  map_iter tm = Some [] ∧ working_maps tm = Some ∅
  ∧ ∃ rest w res mr,
      reduce_iter tm = Some rest ∧ working_reduces tm = Some w
      ∧ results tm = Some res ∧ map_results tm = Some mr
      ∧ (∀ item, item ∈ rest → is_Some (mr !! item.1))
      ∧ (∀ k, k ∈ w → is_Some (mr !! k)).

Definition tm_inv (tm : TaskManager) : Prop :=
  match state tm with
  | START => True
  | MAPPING => map_side_ok tm
  | REDUCING => map_side_ok tm ∧ reduce_side_ok tm
  | FINISHED =>
      map_side_ok tm ∧ reduce_side_ok tm
      ∧ reduce_iter tm = Some [] ∧ working_reduces tm = Some ∅
  end.

End TaskManager.

Arguments payload K V K2 V2 R {_ _}.
Arguments TaskManager K V K2 V2 R {_ _ _ _}.
Arguments reply K V K2 V2 R {_ _}.
Arguments call K K2 V2 R {_ _}.

(** ** The wire protocol: class [Protocol] *)

(** The terminator of [asynchat]: the newline, or a number of bytes. *)
Inductive terminator : Type :=
  | TermNewline
  | TermBytes (n : Z).

(** What a channel does to the outside, in the order it does it. *)
Inductive effect : Type :=
  | Push (data : string)            (* self.push(data) *)
  | Loads (pdata : string)          (* pickle.loads(pdata) *)
  | SetTerminator (t : terminator)  (* self.set_terminator(t) *)
  | Close                           (* self.close() *)
  | LogFatal                        (* logging.fatal(...) *)
  | LogCritical.                    (* logging.critical(...) *)

Global Instance terminator_eq_dec : EqDecision terminator.
Proof. solve_decision. Defined.
Global Instance effect_eq_dec : EqDecision effect.
Proof. solve_decision. Defined.

(** The attributes of a [Protocol] object, with the two pieces of
    [asynchat.async_chat] the module relies on: the terminator and whether
    the socket is open.  [trace] records the effects. *)
Record Protocol : Type := {
  term : terminator;
  buffer : list string;
  auth : option string;
  mid_command : option string;
  connected : bool;
  trace : list effect
}.

Definition Protocol_init : Protocol :=
  {| term := TermNewline; buffer := []; auth := None; mid_command := None;
     connected := true; trace := [] |}.

Definition set_term x (p : Protocol) :=
  {| term := x; buffer := buffer p; auth := auth p;
     mid_command := mid_command p; connected := connected p;
     trace := trace p |}.
Definition set_buffer x (p : Protocol) :=
  {| term := term p; buffer := x; auth := auth p;
     mid_command := mid_command p; connected := connected p;
     trace := trace p |}.
Definition set_auth x (p : Protocol) :=
  {| term := term p; buffer := buffer p; auth := x;
     mid_command := mid_command p; connected := connected p;
     trace := trace p |}.
Definition set_mid_command x (p : Protocol) :=
  {| term := term p; buffer := buffer p; auth := auth p;
     mid_command := x; connected := connected p;
     trace := trace p |}.
Definition set_connected x (p : Protocol) :=
  {| term := term p; buffer := buffer p; auth := auth p;
     mid_command := mid_command p; connected := x;
     trace := trace p |}.
Definition set_trace x (p : Protocol) :=
  {| term := term p; buffer := buffer p; auth := auth p;
     mid_command := mid_command p; connected := connected p;
     trace := x |}.

Definition emit (e : effect) : Py Protocol unit :=
  modify (λ p, set_trace (trace p ++ [e]) p).

Definition push (data : string) : Py Protocol unit := emit (Push data).

Definition set_terminator (t : terminator) : Py Protocol unit :=
  exec modify (set_term t);
  emit (SetTerminator t).

(** [asyncore.dispatcher.close]. *)
Definition close : Py Protocol unit :=
  exec modify (set_connected false);
  emit Close.

Definition collect_incoming_data (data : string) : Py Protocol unit :=
  modify (λ p, set_buffer (buffer p ++ [data]) p).

(** [message.find(SEPARATOR)]; [None] is Python's [-1]. *)
Fixpoint find_sep (message : string) : option nat :=
  match message with
  | EmptyString => None
  | String c rest =>
      if Ascii.eqb c ":"%char then Some 0 else S <$> find_sep rest
  end.

Definition decode_command {S} (message : string) : Py S (string * string) :=
  match find_sep message with
  | None => raise ValueError
  | Some idx =>
      ret (String.substring 0 idx message,
           String.substring (idx + 1) (String.length message - (idx + 1))
                            message)
  end.

(** The draws a frame handler may consume: one of [random.choice] and one
    of [os.urandom(20).encode("hex")]. *)
Record Env : Type := { rnd : nat; urandom_hex : string }.

(** Python truthiness of a string. *)
Definition truthy (s : string) : bool :=
  match s with EmptyString => false | _ => true end.

Section Wire.
Context {K V K2 V2 R : Type}.
Context `{Countable K, Countable K2}.

Abbreviation payload := (payload K V K2 V2 R).
Abbreviation TaskManager := (TaskManager K V K2 V2 R).

(** Library functions and flags the module uses:
    [FLAGS.password], [hmac.new(key, msg, hashlib.sha1).digest().encode("hex")],
    [pickle.dumps], [pickle.loads] ([None] when it raises) and [int] on a
    string ([None] when it raises [ValueError]). *)
Variable password : string.
Variable hmac_sha1_hex : string → string → string.
Variable pickle_dumps : payload → string.
Variable pickle_loads : string → option payload.
Variable py_int : string → option Z.

(** The second argument of a handler: nothing, the inline argument of the
    header, or the unpickled object. *)
Inductive cmd_data : Type :=
  | NoData
  | Arg (s : string)
  | Obj (p : payload).

(** [Protocol.send_command(command, data=None, arg=None)]. *)
Definition send_command (command : string) (data : option payload)
    (arg : option string) : Py Protocol unit :=
  let encoded := command +:+ SEPARATOR in
  match arg, data with
  | Some a, _ =>
      if truthy a then push (encoded +:+ a +:+ TERMINATOR)
      else
        match data with
        | Some d =>
            let pdata := pickle_dumps d in
            push (encoded +:+ pretty (String.length pdata) +:+ TERMINATOR
                  +:+ pdata)
        | None => push (encoded +:+ TERMINATOR)
        end
  | None, Some d =>
      let pdata := pickle_dumps d in
      push (encoded +:+ pretty (String.length pdata) +:+ TERMINATOR
            +:+ pdata)
  | None, None => push (encoded +:+ TERMINATOR)
  end.

(** [Protocol.send_challenge]; [nonce] is [os.urandom(20).encode("hex")]. *)
Definition send_challenge (nonce : string) : Py Protocol unit :=
  exec modify (set_auth (Some nonce));
  send_command COMMAND.challenge None (Some nonce).

(** The bytes [send_command] pushes for a frame. *)
Definition wire_frame (command : string) (data : option payload)
    (arg : option string) : string :=
  let encoded := command +:+ SEPARATOR in
  let with_data :=
    match data with
    | Some d =>
        let pdata := pickle_dumps d in
        encoded +:+ pretty (String.length pdata) +:+ TERMINATOR +:+ pdata
    | None => encoded +:+ TERMINATOR
    end in
  match arg with
  | Some a => if truthy a then encoded +:+ a +:+ TERMINATOR else with_data
  | None => with_data
  end.

(** The methods of [Protocol] that call the overridable ones
    ([handle_close], [post_auth_init], [process_command]) are written
    over the state [St] of the subclass. *)
Section Handlers.
Context {St : Type}.
Variable proto : St → Protocol.
Variable set_proto : Protocol → St → St.
Variable handle_close : Py St unit.
Variable post_auth_init : Env → Py St unit.

Definition self {A} (m : Py Protocol A) : Py St A :=
  zoom proto set_proto m.

Definition handler : Type := string → cmd_data → Py St unit.

(** [handlers[command](command, data)]. *)
Fixpoint dispatch (handlers : list (string * handler))
    (command : string) (data : cmd_data) : Py St unit :=
  match handlers with
  | [] => raise KeyError
  | (name, h) :: rest =>
      if decide (name = command) then h command data
      else dispatch rest command data
  end.

Definition respond_to_challenge (env : Env) : handler := λ command data,
  do msg <- match data with
            | Arg s => ret s
            | NoData => ret ""
            | Obj _ => raise TypeError
            end;
  exec self (send_command COMMAND.auth None
               (Some (hmac_sha1_hex password msg)));
  post_auth_init env.

Definition verify_auth : handler := λ command data,
  do st <- get;
  let mac := hmac_sha1_hex password (default "" (auth (proto st))) in
  match data with
  | Arg s =>
      if decide (s = mac) then self (modify (set_auth (Some "Done")))
      else handle_close
  | _ => handle_close
  end.

(** [Protocol.process_command]. *)
Definition Protocol_process_command (env : Env) : handler :=
  λ command data,
  try_except
    (dispatch [(COMMAND.challenge, respond_to_challenge env);
               (COMMAND.disconnect, λ _ _, handle_close)]
              command data)
    is_KeyError
    (exec self (emit LogCritical);
     handle_close).

Definition process_unauthed_command (env : Env) : handler :=
  λ command data,
  try_except
    (dispatch [(COMMAND.challenge, respond_to_challenge env);
               (COMMAND.auth, verify_auth);
               (COMMAND.disconnect, λ _ _, handle_close)]
              command data)
    is_KeyError
    (exec self (emit LogCritical);
     handle_close).

Variable process_command : Env → handler.

(** [Protocol.found_terminator]. *)
Definition found_terminator (env : Env) : Py St unit :=
  do st <- get;
  let message := String.concat "" (buffer (proto st)) in
  exec
    (if decide (auth (proto st) ≠ Some "Done") then
       do cd <- decode_command message;
       process_unauthed_command env cd.1 (Arg cd.2)
     else if decide (mid_command (proto st) = None) then
       do cl <- decode_command message;
       if decide (cl.1 = COMMAND.challenge) then
         process_command env cl.1 (Arg cl.2)
       else if truthy cl.2 then
         do n <- match py_int cl.2 with
                 | Some n => ret n
                 | None => raise ValueError
                 end;
         exec self (set_terminator (TermBytes n));
         self (modify (set_mid_command (Some cl.1)))
       else
         process_command env cl.1 NoData
     else
       exec
         (if decide (auth (proto st) ≠ Some "Done") then
            exec self (emit LogFatal);
            raise SystemExit
          else ret tt);
       exec self (emit (Loads message));
       do data <- match pickle_loads message with
                  | Some d => ret d
                  | None => raise UnpicklingError
                  end;
       exec self (set_terminator TermNewline);
       do st' <- get;
       let command := default "" (mid_command (proto st')) in
       exec self (modify (set_mid_command None));
       process_command env command (Obj data));
  self (modify (set_buffer [])).

(** One frame arriving: the bytes up to the terminator are collected,
    then [found_terminator] runs. *)
Definition receive (env : Env) (message : string) : Py St unit :=
  exec self (collect_incoming_data message);
  found_terminator env.
(** The states before and after each frame of a sequence of frames. *)
Fixpoint visits (step : Env → string → Py St unit)
    (frames : list (Env * string)) (st : St) : list (St * St) :=
  match frames with
  | [] => []
  | (env, message) :: frames' =>
      let st' := state_of (step env message st) in
      (st, st') :: visits step frames' st'
  end.

End Handlers.

(** ** The worker: class [Client] *)

(** The pluggable implementations.  A mapper yields emissions and may
    then raise; a reducer returns a value or raises. *)
Variable Mapper_Map : K → V → list (K2 * V2) * option exn.
Variable Reducer_Reduce : K2 → list V2 → outcome R.

Record Client : Type := {
  client_proto : Protocol;
  mapper : option unit;
  reducer : option unit
}.

Definition Client_init : Client :=
  {| client_proto := Protocol_init; mapper := None; reducer := None |}.

Definition set_client_proto x (c : Client) :=
  {| client_proto := x; mapper := mapper c; reducer := reducer c |}.
Definition set_mapper x (c : Client) :=
  {| client_proto := client_proto c; mapper := x; reducer := reducer c |}.
Definition set_reducer x (c : Client) :=
  {| client_proto := client_proto c; mapper := mapper c; reducer := x |}.

Definition Client_handle_close : Py Client unit :=
  zoom client_proto set_client_proto close.

(** The body of the loop of [call_map]: append to the list of the key, or
    start it on [KeyError]. *)
Definition group_step (results : gmap K2 (list V2)) (kv : K2 * V2)
    : gmap K2 (list V2) :=
  match results !! kv.1 with
  | Some l => <[kv.1 := l ++ [kv.2]]> results
  | None => <[kv.1 := [kv.2]]> results
  end.

Definition group_emissions (ems : list (K2 * V2)) : gmap K2 (list V2) :=
  foldl group_step ∅ ems.

(** [Client.call_map].  A payload of another shape than the task tuple
    is an error of the typed model. *)
Definition call_map : string → cmd_data → Py Client unit := λ command data,
  match data with
  | Obj (MapData k v) =>
      exec (do c <- get;
            if decide (mapper c = None) then modify (set_mapper (Some tt))
            else ret tt);
      match Mapper_Map k v with
      | (ems, None) =>
          zoom client_proto set_client_proto
            (send_command COMMAND.mapdone
               (Some (MapResult k (group_emissions ems))) None)
      | (ems, Some e) => raise e
      end
  | _ => raise TypeError
  end.

(** [Client.call_reduce]. *)
Definition call_reduce : string → cmd_data → Py Client unit :=
  λ command data,
  match data with
  | Obj (ReduceData k vs) =>
      exec (do c <- get;
            if decide (reducer c = None) then modify (set_reducer (Some tt))
            else ret tt);
      match Reducer_Reduce k vs with
      | Ret r =>
          zoom client_proto set_client_proto
            (send_command COMMAND.reducedone (Some (ReduceResult k r)) None)
      | Raise e => raise e
      end
  | _ => raise TypeError
  end.

(** [Client.post_auth_init]. *)
Definition Client_post_auth_init (env : Env) : Py Client unit :=
  do c <- get;
  match auth (client_proto c) with
  | Some a =>
      if truthy a then ret tt
      else zoom client_proto set_client_proto
             (send_challenge (urandom_hex env))
  | None => zoom client_proto set_client_proto
              (send_challenge (urandom_hex env))
  end.

(** [Client.process_command]. *)
Definition Client_process_command (env : Env)
    : string → cmd_data → Py Client unit := λ command data,
  try_except
    (dispatch [(COMMAND.map, call_map); (COMMAND.reduce, call_reduce)]
              command data)
    is_KeyError
    (Protocol_process_command client_proto set_client_proto
       Client_handle_close Client_post_auth_init env command data).

Definition Client_found_terminator : Env → Py Client unit :=
  found_terminator client_proto set_client_proto Client_handle_close
    Client_post_auth_init Client_process_command.

Definition Client_receive : Env → string → Py Client unit :=
  receive client_proto set_client_proto Client_handle_close
    Client_post_auth_init Client_process_command.

(** ** The master side: classes [ServerChannel] and [Server] *)

(** A channel of the master works on its own protocol state and on the
    task manager of the server, which all channels share. *)
Record ServerChannel : Type := {
  channel_proto : Protocol;
  taskmanager : TaskManager
}.

Definition set_channel_proto x (sc : ServerChannel) :=
  {| channel_proto := x; taskmanager := taskmanager sc |}.
Definition set_taskmanager x (sc : ServerChannel) :=
  {| channel_proto := channel_proto sc; taskmanager := x |}.

Definition ServerChannel_handle_close : Py ServerChannel unit :=
  zoom channel_proto set_channel_proto close.

(** [ServerChannel.start_new_task].  Unpacking the implicit [None] of
    [next_task] raises [TypeError]; a command that is returned is never
    [None]. *)
Definition start_new_task (env : Env) : Py ServerChannel unit :=
  do r <- zoom taskmanager set_taskmanager (next_task (rnd env));
  match r with
  | None => raise TypeError
  | Some (command, data) =>
      zoom channel_proto set_channel_proto (send_command command data None)
  end.

(** [ServerChannel.map_done] and [ServerChannel.reduce_done].  A payload
    of another shape than the report tuple is an error of the typed
    model. *)
Definition ServerChannel_map_done (env : Env)
    : string → cmd_data → Py ServerChannel unit := λ command data,
  match data with
  | Obj (MapResult k res) =>
      exec zoom taskmanager set_taskmanager (map_done (k, res));
      start_new_task env
  | _ => raise TypeError
  end.

Definition ServerChannel_reduce_done (env : Env)
    : string → cmd_data → Py ServerChannel unit := λ command data,
  match data with
  | Obj (ReduceResult k r) =>
      exec zoom taskmanager set_taskmanager (reduce_done (k, r));
      start_new_task env
  | _ => raise TypeError
  end.

Definition ServerChannel_post_auth_init (env : Env) : Py ServerChannel unit :=
  start_new_task env.

Definition ServerChannel_process_command (env : Env)
    : string → cmd_data → Py ServerChannel unit := λ command data,
  try_except
    (dispatch [(COMMAND.mapdone, ServerChannel_map_done env);
               (COMMAND.reducedone, ServerChannel_reduce_done env)]
              command data)
    is_KeyError
    (Protocol_process_command channel_proto set_channel_proto
       ServerChannel_handle_close ServerChannel_post_auth_init
       env command data).

Definition ServerChannel_found_terminator : Env → Py ServerChannel unit :=
  found_terminator channel_proto set_channel_proto
    ServerChannel_handle_close ServerChannel_post_auth_init
    ServerChannel_process_command.

Definition ServerChannel_receive : Env → string → Py ServerChannel unit :=
  receive channel_proto set_channel_proto ServerChannel_handle_close
    ServerChannel_post_auth_init ServerChannel_process_command.

(** [ServerChannel.__init__]: the protocol state of a fresh channel after
    [start_auth]. *)
Definition ServerChannel_init (env : Env) : Protocol :=
  state_of (send_challenge (urandom_hex env) Protocol_init).

(** The master process: the task manager (with the listening socket of
    its server) and the channels accepted so far. *)
Record Master : Type := {
  master_taskmanager : TaskManager;
  master_channels : list Protocol
}.

(** [Server.set_datasource] before any connection. *)
Definition Master_init (ds : gmap K V) : Master :=
  {| master_taskmanager := TaskManager_init ds {| listening := true |};
     master_channels := [] |}.

(** [Server.handle_accept]. *)
Definition handle_accept (env : Env) (m : Master) : Master :=
  {| master_taskmanager := master_taskmanager m;
     master_channels := master_channels m ++ [ServerChannel_init env] |}.

(** A frame arrives on channel [i] of the master. *)
Definition deliver (i : nat) (env : Env) (message : string) (m : Master)
    : outcome unit * Master :=
  match master_channels m !! i with
  | None => (Ret tt, m)
  | Some p =>
      let '(r, sc) :=
        ServerChannel_receive env message
          {| channel_proto := p; taskmanager := master_taskmanager m |} in
      (r, {| master_taskmanager := taskmanager sc;
             master_channels := <[i := channel_proto sc]> (master_channels m) |})
  end.

(** What [Server.run_server] returns when the loop ends. *)
Definition run_server_result (m : Master) : option (gmap K2 R) :=
  results (master_taskmanager m).


(** ** A run of the engine, task by task

    What a faithful worker answers to a task is what [call_map] and
    [call_reduce] send back; what the master does with the answer is
    [ServerChannel.map_done] or [reduce_done]: the report goes to the task
    manager, then the worker gets its next task.  [System] keeps the task
    manager and, for every worker that has joined, the task it is working
    on ([None] once it has been told to disconnect or has died). *)

Definition worker (task : payload) : outcome payload :=
  match task with
  | MapData k v =>
      match Mapper_Map k v with
      | (ems, None) => Ret (MapResult k (group_emissions ems))
      | (_, Some e) => Raise e
      end
  | ReduceData k vs =>
      match Reducer_Reduce k vs with
      | Ret r => Ret (ReduceResult k r)
      | Raise e => Raise e
      end
  | _ => Raise TypeError
  end.

Record System : Type := {
  sys_taskmanager : TaskManager;
  workers : list (option payload)
}.

Definition set_sys_taskmanager x (s : System) :=
  {| sys_taskmanager := x; workers := workers s |}.
Definition set_workers x (s : System) :=
  {| sys_taskmanager := sys_taskmanager s; workers := x |}.

Definition System_init (ds : gmap K V) : System :=
  {| sys_taskmanager := TaskManager_init ds {| listening := true |};
     workers := [] |}.

Inductive event : Type :=
  | Join (rnd : nat)                 (* a worker completes the handshake *)
  | Finish (i : nat) (rnd : nat).    (* worker [i] finishes its task *)

(** [start_new_task] for the worker in [slot] ([None]: a new worker). *)
Definition sys_start_new_task (slot : option nat) (rnd : nat)
    : Py System unit :=
  do r <- zoom sys_taskmanager set_sys_taskmanager (next_task rnd);
  match r with
  | None => raise TypeError
  | Some (_, data) =>
      modify (λ s, set_workers
                     match slot with
                     | Some i => <[i := data]> (workers s)
                     | None => workers s ++ [data]
                     end s)
  end.

Definition sys_step (ev : event) : Py System unit :=
  match ev with
  | Join rnd => sys_start_new_task None rnd
  | Finish i rnd =>
      do s <- get;
      match workers s !! i with
      | Some (Some task) =>
          match worker task with
          | Ret (MapResult k res) =>
              exec zoom sys_taskmanager set_sys_taskmanager
                     (map_done (k, res));
              sys_start_new_task (Some i) rnd
          | Ret (ReduceResult k r) =>
              exec zoom sys_taskmanager set_sys_taskmanager
                     (reduce_done (k, r));
              sys_start_new_task (Some i) rnd
          | _ => modify (λ s, set_workers (<[i := None]> (workers s)) s)
          end
      | _ => ret tt
      end
  end.

Fixpoint run (evs : list event) : Py System unit :=
  match evs with
  | [] => ret tt
  | ev :: evs' => exec sys_step ev; run evs'
  end.

End Wire.

Arguments cmd_data K V K2 V2 R {_ _}.
Arguments ServerChannel K V K2 V2 R {_ _ _ _}.
Arguments Master K V K2 V2 R {_ _ _ _}.
Arguments System K V K2 V2 R {_ _ _ _}.

(** ** The identity mapper and reducer, and grouping by key *)

Section Identity.
Context {K V : Type} `{Countable K}.

(** Modelled from the spec: the identity mapper of the missing module
    [mapreducer] emits its input pair and nothing else. *)
Definition identity_Map (k : K) (v : V) : list (K * V) * option exn :=
  ([(k, v)], None).

(** Modelled from the spec: the identity reducer of the missing module
    [mapreducer] returns the values it is given. *)
Definition identity_Reduce (k : K) (vs : list V) : outcome (list V) :=
  Ret vs.

(** Grouping the values of a collection of pairs by key, in order. *)
Definition group_by_key (pairs : list (K * V)) : gmap K (list V) :=
  foldr (λ kv acc, <[kv.1 := kv.2 :: default [] (acc !! kv.1)]> acc) ∅ pairs.

Definition group_dataset (ds : gmap K V) : gmap K (list V) :=
  group_by_key (map_to_list ds).

(** One worker that joins and then finishes task after task. *)
Definition one_worker_schedule (ds : gmap K V) : list event :=
  Join 0 :: replicate (2 * size ds) (Finish 0 0).

Definition identity_run (evs : list event) (ds : gmap K V)
    : outcome unit * System K V K V (list V) :=
  run identity_Map identity_Reduce evs (System_init ds).

(** What the run computes: every key with the list of its one value. *)
Definition grouped (ds : gmap K V) : gmap K (list V) := (λ v, [v]) <$> ds.

(** The invariant of a run with faithful identity workers.  In the map
    phase the keys already iterated are [done]; those not in flight have
    their entry in the intermediate results.  In the reduce phase the
    intermediate results are complete, and the same holds of the items
    iterated and the final results. *)
Definition map_content (ds : gmap K V) (tm : TaskManager K V K V (list V))
    : Prop :=
  ∃ done rest (w : gset K) mr,
    iter_keys ds = done ++ rest
    ∧ map_iter tm = Some rest ∧ working_maps tm = Some w
    ∧ map_results tm = Some mr
    ∧ (∀ k, k ∈ w → k ∈ done)
    ∧ (∀ k, mr !! k = if decide (k ∈ done ∧ k ∉ w) then grouped ds !! k
                      else None).

Definition reduce_content (ds : gmap K V) (tm : TaskManager K V K V (list V))
    : Prop :=
  map_iter tm = Some [] ∧ working_maps tm = Some ∅
  ∧ map_results tm = Some (grouped ds)
  ∧ ∃ done rest (w : gset K) res,
      map_to_list (grouped ds) = done ++ rest
      ∧ reduce_iter tm = Some rest ∧ working_reduces tm = Some w
      ∧ results tm = Some res
      ∧ (∀ k, k ∈ w → k ∈ done.*1)
      ∧ (∀ k, res !! k = if decide (k ∈ done.*1 ∧ k ∉ w)
                         then grouped ds !! k else None).

Definition content_inv (ds : gmap K V) (tm : TaskManager K V K V (list V))
    : Prop :=
  datasource tm = ds
  ∧ match state tm with
    | START => True
    | MAPPING => map_content ds tm
    | REDUCING => reduce_content ds tm
    | FINISHED =>
        reduce_content ds tm
        ∧ reduce_iter tm = Some [] ∧ working_reduces tm = Some ∅
    end.

(** A task a worker may hold: a pair of the dataset once mapping has
    begun, an item of the complete intermediate results once reducing
    has. *)
Definition task_ok (ds : gmap K V) (tm : TaskManager K V K V (list V))
    (t : payload K V K V (list V)) : Prop :=
  match t with
  | MapData k v => ds !! k = Some v ∧ (1 ≤ phase_rank (state tm))%nat
  | ReduceData k vs =>
      grouped ds !! k = Some vs ∧ (2 ≤ phase_rank (state tm))%nat
  | _ => False
  end.

Definition sys_inv (ds : gmap K V) (s : System K V K V (list V)) : Prop :=
  content_inv ds (sys_taskmanager s)
  ∧ Forall (λ w, ∀ t, w = Some t → task_ok ds (sys_taskmanager s) t)
      (workers s).

(** The states of the run of one worker, [n] tasks before its end. *)
Definition one_worker_state (ds : gmap K V) (n : nat)
    (s : System K V K V (list V)) : Prop :=
  let tm := sys_taskmanager s in
  sys_inv ds s
  ∧ ((state tm = MAPPING
      ∧ ∃ k v rest, workers s = [Some (MapData k v)]
                    ∧ working_maps tm = Some {[k]}
                    ∧ map_iter tm = Some rest
                    ∧ n = length rest + 1 + size ds)
     ∨ (state tm = REDUCING
        ∧ ∃ k vs rest, workers s = [Some (ReduceData k vs)]
                       ∧ working_reduces tm = Some {[k]}
                       ∧ reduce_iter tm = Some rest
                       ∧ n = length rest + 1)
     ∨ (state tm = FINISHED ∧ n = 0 ∧ workers s = [None])).

End Identity.

(** ** What a method may do to its channel

    [changes ok keep p p'] relates the protocol state before and after a
    method: the trace has only grown, by effects that [ok] accepts, and,
    when [keep] is set, the terminator and the pending command are the
    same. *)

(** The effects of handling an inline frame. *)
Definition inline_effect (e : effect) : bool :=
  match e with
  | Push _ | Close | LogCritical => true
  | Loads _ | SetTerminator _ | LogFatal => false
  end.

Definition not_fatal (e : effect) : bool :=
  match e with
  | LogFatal => false
  | _ => true
  end.

Definition changes (ok : effect → bool) (keep : bool) (p p' : Protocol)
    : Prop :=
  (keep = true → term p' = term p ∧ mid_command p' = mid_command p)
  ∧ ∃ new, trace p' = trace p ++ new ∧ Forall (λ e, ok e = true) new.

Definition preserves {St A} (proto : St → Protocol)
    (rel : Protocol → Protocol → Prop) (m : Py St A) : Prop :=
  ∀ st, rel (proto st) (proto (state_of (m st))).

(** What the handling of one frame may do, seen from the protocol state
    before ([p]) and after ([p']): no fatal exit, unpickling and switching
    of the terminator only when [p] is authenticated, and otherwise only
    the effects of an inline frame with the reader left as it is. *)
Definition frame_safe (p p' : Protocol) : Prop :=
  ∃ new, trace p' = trace p ++ new
    ∧ LogFatal ∉ new
    ∧ (∀ pdata, Loads pdata ∈ new → auth p = Some "Done")
    ∧ (∀ t, SetTerminator t ∈ new → auth p = Some "Done")
    ∧ (auth p ≠ Some "Done" →
         term p' = term p ∧ mid_command p' = mid_command p
         ∧ Forall (λ e, inline_effect e = true) new).

(** ** A concrete setting

    Word count on strings, with stand-ins for the library functions, used
    to evaluate the engine on explicit inputs. *)

Module Demo.

Definition password : string := "default".

Definition hmac_sha1_hex (key msg : string) : string :=
  "hmac(" +:+ key +:+ "," +:+ msg +:+ ")".

Definition pickle_dumps (d : payload string string string nat nat) : string :=
  match d with
  | MapData k v => "T" +:+ k +:+ "=" +:+ v
  | ReduceData k vs => "U" +:+ k
  | MapResult k res => "R" +:+ k
  | ReduceResult k r => "S" +:+ k
  end.

Definition pickle_loads (pdata : string)
    : option (payload string string string nat nat) :=
  match pdata with
  | String "T" k => Some (MapData k "")
  | String "U" k => Some (ReduceData k [])
  | String "R" k => Some (MapResult k ∅)
  | String "S" k => Some (ReduceResult k 0)
  | _ => None
  end.

Definition py_int (s : string) : option Z :=
  match s with
  | "3" => Some 3%Z
  | "4" => Some 4%Z
  | _ => None
  end.

(** A mapper that fails on every input, and a reducer that does too. *)
Definition failing_Map (k v : string) : list (string * nat) * option exn :=
  ([], Some (UserError "mapper failed")).

Definition failing_Reduce (k : string) (vs : list nat) : outcome nat :=
  Raise (UserError "reducer failed").

Definition dataset : gmap string string :=
  <["a" := "x y x"]> (<["b" := "y"]> ∅).

Definition env0 : Env := {| rnd := 0; urandom_hex := "c0ffee" |}.

(** A task manager in the FINISHED phase. *)
Definition finished_taskmanager : TaskManager string string string nat nat :=
  {| datasource := dataset; server := {| listening := true |};
     state := FINISHED;
     map_iter := Some []; working_maps := Some ∅; map_results := Some ∅;
     reduce_iter := Some []; working_reduces := Some ∅;
     results := Some ∅ |}.

(** A master in the FINISHED phase with two authenticated channels. *)
Definition authenticated : Protocol :=
  set_auth (Some "Done") Protocol_init.

Definition finished_master : Master string string string nat nat :=
  {| master_taskmanager := finished_taskmanager;
     master_channels := [authenticated; authenticated] |}.

(** A task manager at the tail of the map phase: every key has been
    issued, ["a"] is done and ["b"] is still in flight. *)
Definition straggling_taskmanager : TaskManager string string string nat nat :=
  {| datasource := dataset; server := {| listening := true |};
     state := MAPPING;
     map_iter := Some []; working_maps := Some {["b"]};
     map_results := Some (<["x" := [1; 1]]> {["y" := [1]]});
     reduce_iter := None; working_reduces := None; results := None |}.

(** A task manager in the reduce phase with ["x"] in flight and an older
    final result recorded for it. *)
Definition reducing_taskmanager : TaskManager string string string nat nat :=
  {| datasource := dataset; server := {| listening := true |};
     state := REDUCING;
     map_iter := Some []; working_maps := Some ∅;
     map_results := Some (<["x" := [1; 1]]> {["y" := [1; 1]]});
     reduce_iter := Some []; working_reduces := Some {["x"]};
     results := Some {["x" := 7]} |}.

(** A fresh channel of the master, just after [start_auth]. *)
Definition fresh_channel : ServerChannel string string string nat nat :=
  {| channel_proto := ServerChannel_init pickle_dumps env0;
     taskmanager := TaskManager_init dataset {| listening := true |} |}.

(** An authenticated worker that has read the header of a MAP task. *)
Definition client_awaiting_map : Client :=
  {| client_proto :=
       set_mid_command (Some COMMAND.map)
         (set_term (TermBytes 2) (set_auth (Some "Done") Protocol_init));
     mapper := None; reducer := None |}.

Definition client_awaiting_reduce : Client :=
  {| client_proto :=
       set_mid_command (Some COMMAND.reduce)
         (set_term (TermBytes 2) (set_auth (Some "Done") Protocol_init));
     mapper := None; reducer := None |}.

(** An authenticated channel of the master between two frames, and one
    that has read the header of a map report, at the tail of the map
    phase. *)
Definition authenticated_channel : ServerChannel string string string nat nat :=
  {| channel_proto := authenticated;
     taskmanager := straggling_taskmanager |}.

Definition channel_awaiting_mapdone
    : ServerChannel string string string nat nat :=
  {| channel_proto :=
       set_mid_command (Some COMMAND.mapdone)
         (set_term (TermBytes 2) authenticated);
     taskmanager := straggling_taskmanager |}.

(** A mapper that emits its key once, with the count 1. *)
Definition key_Map (k v : string) : list (string * nat) * option exn :=
  ([(k, 1)], None).

End Demo.

(** * Properties *)

(** ** Reports to the task manager *)

Section Reports.
Context {K V K2 V2 R : Type} `{Countable K, Countable K2}.
Implicit Types (tm : TaskManager K V K2 V2 R).
Implicit Types (mr : gmap K2 (list V2)).

Lemma set_map_results_id tm mr :
  map_results tm = Some mr → set_map_results mr tm = tm.
Proof. destruct tm; simpl; intros ->; reflexivity. Qed.

Lemma extend_results_lookup mr item ik :
  extend_results mr item !! ik =
  if decide (ik = item.1) then Some (default [] (mr !! ik) ++ item.2)
  else mr !! ik.
Proof.
  unfold extend_results. destruct item as [k vs]; simpl.
  destruct (decide (ik = k)) as [->|Hne].
  - rewrite lookup_insert_eq. destruct (mr !! k) eqn:E; simpl.
    + by rewrite E.
    + by rewrite lookup_insert_eq.
  - rewrite lookup_insert_ne by done.
    destruct (mr !! k); [done|]. by rewrite lookup_insert_ne.
Qed.

(** The loop of [map_done] never raises once [map_results] exists, and
    amounts to folding [extend_results] over the report. *)
Lemma map_done_loop items : ∀ tm mr,
  map_results tm = Some mr →
  for_each items
    (λ item, do mr <- attr map_results;
             modify (set_map_results (extend_results mr item))) tm
  = (Ret tt, set_map_results (foldl extend_results mr items) tm).
Proof.
  induction items as [|item items IH]; intros tm mr Hmr; simpl.
  - by rewrite set_map_results_id.
  - unfold bind at 1. unfold bind at 1. unfold attr at 1. rewrite Hmr.
    unfold modify at 1.
    rewrite (IH _ (extend_results mr item)) by done.
    by destruct tm.
Qed.

Lemma foldl_extend_results_lookup items : ∀ mr ik,
  NoDup items.*1 →
  foldl extend_results mr items !! ik =
  match (list_to_map items : gmap K2 (list V2)) !! ik with
  | Some values => Some (default [] (mr !! ik) ++ values)
  | None => mr !! ik
  end.
Proof.
  induction items as [|[k vs] items IH]; intros mr ik Hnd; simpl.
  - by rewrite lookup_empty.
  - apply NoDup_cons in Hnd as [Hk Hnd]. rewrite IH by done.
    rewrite extend_results_lookup; simpl.
    destruct (decide (ik = k)) as [->|Hne].
    + rewrite lookup_insert_eq.
      rewrite (not_elem_of_list_to_map_1 items k Hk). done.
    + by rewrite lookup_insert_ne.
Qed.

Lemma map_done_accepted_appends_aux tm w mr (data : K * gmap K2 (list V2)) :
  working_maps tm = Some w →
  map_results tm = Some mr →
  data.1 ∈ w →
  ∃ mr',
    map_done data tm
    = (Ret tt, set_working_maps (w ∖ {[data.1]}) (set_map_results mr' tm)).
Proof.
  intros Hw Hmr Hin.
  exists (foldl extend_results mr (map_to_list data.2)).
  unfold map_done. unfold bind at 1, attr at 1. rewrite Hw.
  rewrite decide_True by done.
  unfold bind at 1. rewrite (map_done_loop _ tm mr Hmr).
  unfold bind, attr, modify. destruct tm; simpl in *. by rewrite Hw.
Qed.

Lemma map_done_stale_is_noop_aux tm w (data : K * gmap K2 (list V2)) :
  working_maps tm = Some w → data.1 ∉ w → map_done data tm = (Ret tt, tm).
Proof.
  intros Hw Hnin. unfold map_done, bind, attr. rewrite Hw.
  by rewrite decide_False.
Qed.

Lemma map_done_accepted tm w mr (data : K * gmap K2 (list V2)) :
  working_maps tm = Some w →
  map_results tm = Some mr →
  data.1 ∈ w →
  ∃ mr',
    map_done data tm
    = (Ret tt, set_working_maps (w ∖ {[data.1]}) (set_map_results mr' tm))
    ∧ ∀ ik, mr' !! ik =
            match data.2 !! ik with
            | Some values => Some (default [] (mr !! ik) ++ values)
            | None => mr !! ik
            end.
Proof.
  intros Hw Hmr Hin.
  exists (foldl extend_results mr (map_to_list data.2)). split.
  - unfold map_done. unfold bind at 1, attr at 1. rewrite Hw.
    rewrite decide_True by done.
    unfold bind at 1. rewrite (map_done_loop _ tm mr Hmr).
    unfold bind, attr, modify. destruct tm; simpl in *. by rewrite Hw.
  - intros ik. rewrite foldl_extend_results_lookup
      by apply NoDup_fst_map_to_list.
    by rewrite list_to_map_to_list.
Qed.

(** C6: an accepted map report appends.  When the task key of the report
    is in the map working set, [map_done] returns normally, removes the key
    from the working set, and leaves under every intermediate key of the
    report the values accumulated before followed by the reported values;
    the other intermediate keys keep their sequences. *)
Theorem map_done_accepted_appends tm w mr (data : K * gmap K2 (list V2)) :
  working_maps tm = Some w →
  map_results tm = Some mr →
  data.1 ∈ w →
  ∃ mr',
    map_done data tm
    = (Ret tt, set_working_maps (w ∖ {[data.1]}) (set_map_results mr' tm))
    ∧ ∀ ik, mr' !! ik =
            match data.2 !! ik with
            | Some values => Some (default [] (mr !! ik) ++ values)
            | None => mr !! ik
            end.
Proof. apply map_done_accepted. Qed.

(** C5: a map report whose task key is not in the map working set changes
    nothing, and whatever a first [map_done] did with a report, a second
    [map_done] with the same report leaves the task manager as it is. *)
Theorem map_done_stale_is_noop tm (data : K * gmap K2 (list V2)) :
  (∀ w, working_maps tm = Some w → data.1 ∉ w →
        map_done data tm = (Ret tt, tm))
  ∧ (∀ tm1, tm1 = state_of (map_done data tm) →
       state_of (map_done data tm1) = tm1
       ∧ (is_Some (working_maps tm) → is_Some (map_results tm) →
          map_done data tm1 = (Ret tt, tm1)
          ∧ map_results tm1 = map_results (state_of (map_done data tm1)))).
Proof.
  assert (Hstale : ∀ tm' w, working_maps tm' = Some w → data.1 ∉ w →
                     map_done data tm' = (Ret tt, tm')).
  { intros tm' w Hw Hnin. unfold map_done, bind, attr. rewrite Hw.
    by rewrite decide_False. }
  split; [by apply Hstale|].
  intros tm1 ->.
  destruct (working_maps tm) as [w|] eqn:Hw.
  - destruct (decide (data.1 ∈ w)) as [Hin|Hnin].
    + destruct (map_results tm) as [mr|] eqn:Hmr.
      * destruct (map_done_accepted_appends_aux tm w mr data Hw Hmr Hin)
          as (mr' & -> ); unfold state_of; simpl.
        assert (Hgo : map_done data
                  (set_working_maps (w ∖ {[data.1]}) (set_map_results mr' tm))
                = (Ret tt,
                   set_working_maps (w ∖ {[data.1]}) (set_map_results mr' tm))).
        { apply (Hstale _ (w ∖ {[data.1]})); [done|set_solver]. }
        rewrite Hgo. auto.
      * split; [|by intros _ [? ?]].
        destruct (map_to_list data.2) as [|item items] eqn:Hitems.
        -- assert (Hfst : map_done data tm
                          = (Ret tt, set_working_maps (w ∖ {[data.1]}) tm)).
           { unfold map_done. unfold bind at 1, attr at 1. rewrite Hw.
             rewrite decide_True by done. rewrite Hitems. simpl.
             unfold bind, ret, attr, modify. by rewrite Hw. }
           rewrite Hfst. unfold state_of; simpl.
           erewrite Hstale; [done|by destruct tm|set_solver].
        -- assert (Hfst : map_done data tm = (Raise AttributeError, tm)).
           { unfold map_done. unfold bind at 1, attr at 1. rewrite Hw.
             rewrite decide_True by done. rewrite Hitems. simpl.
             unfold bind at 1. unfold bind at 1. unfold bind at 1.
             unfold attr at 1. by rewrite Hmr. }
           rewrite Hfst. unfold state_of; simpl. by rewrite Hfst.
    + rewrite (Hstale tm w Hw Hnin). unfold state_of; simpl.
      rewrite (Hstale tm w Hw Hnin). auto.
  - split; [|by intros [? ?]].
    unfold map_done, bind, attr, state_of. rewrite Hw. simpl. by rewrite Hw.
Qed.

(** C7: [reduce_done] overwrites.  When the key of the report is in the
    reduce working set, the final result of that key becomes the reported
    value, whatever was there, and the key leaves the working set; when it
    is not, nothing changes. *)
Theorem reduce_done_overwrites tm w (data : K2 * R) :
  working_reduces tm = Some w →
  (data.1 ∈ w → ∀ res, results tm = Some res →
     reduce_done data tm
     = (Ret tt, set_working_reduces (w ∖ {[data.1]})
                  (set_results (<[data.1 := data.2]> res) tm))
     ∧ (<[data.1 := data.2]> res) !! data.1 = Some data.2
     ∧ ∀ k, k ≠ data.1 → (<[data.1 := data.2]> res) !! k = res !! k)
  ∧ (data.1 ∉ w → reduce_done data tm = (Ret tt, tm)).
Proof.
  intros Hw. split.
  - intros Hin res Hres. split; [|split].
    + unfold reduce_done, bind, attr, modify. rewrite Hw.
      rewrite decide_True by done. rewrite Hres.
      destruct tm; simpl in *. by rewrite Hw.
    + apply lookup_insert_eq.
    + intros k Hk. by rewrite lookup_insert_ne.
  - intros Hnin. unfold reduce_done, bind, attr. rewrite Hw.
    by rewrite decide_False.
Qed.

End Reports.

(** ** The scheduling state machine *)

Section Scheduling.
Context {K V K2 V2 R : Type} `{Countable K, Countable K2}.
Implicit Types (tm : TaskManager K V K2 V2 R).
Implicit Types (c : call K K2 V2 R) (calls : list (call K K2 V2 R)).

Local Ltac run_blocks :=
  unfold next_task, next_task_START, next_task_MAPPING, next_task_REDUCING,
    next_task_FINISHED;
  cbv [bind get modify ret raise attr getitem random_choice];
  simpl.

(** *** The equations of [next_task] *)

Lemma next_task_start rnd tm :
  state tm = START →
  next_task rnd tm
  = next_task rnd
      (set_state MAPPING
         (set_map_results ∅
            (set_working_maps ∅
               (set_map_iter (iter_keys (datasource tm)) tm)))).
Proof. destruct tm; simpl; intros ->. reflexivity. Qed.

Lemma next_task_fresh_map rnd tm k rest w v :
  state tm = MAPPING →
  map_iter tm = Some (k :: rest) →
  working_maps tm = Some w →
  datasource tm !! k = Some v →
  next_task rnd tm
  = (Ret (Some (COMMAND.map, Some (MapData k v))),
     set_working_maps ({[k]} ∪ w) (set_map_iter rest tm)).
Proof.
  destruct tm; simpl; intros -> -> -> Hv. run_blocks. by rewrite Hv.
Qed.

Lemma next_task_reissue_map rnd tm w key v :
  state tm = MAPPING →
  map_iter tm = Some [] →
  working_maps tm = Some w →
  elements w !! (rnd `mod` length (elements w)) = Some key →
  datasource tm !! key = Some v →
  next_task rnd tm = (Ret (Some (COMMAND.map, Some (MapData key v))), tm).
Proof.
  destruct tm; simpl; intros -> -> -> Hkey Hv. run_blocks.
  destruct (decide (0 < size w)) as [_|Hsz].
  - rewrite Hkey. by rewrite Hv.
  - apply lookup_lt_Some in Hkey.
    unfold size, set_size in Hsz. simpl in *. lia.
Qed.

Lemma next_task_to_reducing rnd tm mr :
  state tm = MAPPING →
  map_iter tm = Some [] →
  working_maps tm = Some ∅ →
  map_results tm = Some mr →
  next_task rnd tm
  = next_task rnd
      (set_results ∅
         (set_working_reduces ∅
            (set_reduce_iter (map_to_list mr) (set_state REDUCING tm)))).
Proof.
  destruct tm; simpl; intros -> ->.
  generalize (size_empty (C:=gset K)). generalize (∅ : gset K) as w.
  intros w Hsz -> ->. run_blocks.
  rewrite decide_False; [done|]. rewrite Hsz. lia.
Qed.

Lemma next_task_fresh_reduce rnd tm item rest w :
  state tm = REDUCING →
  reduce_iter tm = Some (item :: rest) →
  working_reduces tm = Some w →
  next_task rnd tm
  = (Ret (Some (COMMAND.reduce, Some (ReduceData item.1 item.2))),
     set_working_reduces ({[item.1]} ∪ w) (set_reduce_iter rest tm)).
Proof. destruct tm; simpl; intros -> -> ->. reflexivity. Qed.

Lemma next_task_reissue_reduce rnd tm w mr key vs :
  state tm = REDUCING →
  reduce_iter tm = Some [] →
  working_reduces tm = Some w →
  elements w !! (rnd `mod` length (elements w)) = Some key →
  map_results tm = Some mr →
  mr !! key = Some vs →
  next_task rnd tm
  = (Ret (Some (COMMAND.reduce, Some (ReduceData key vs))), tm).
Proof.
  destruct tm; simpl; intros -> -> -> Hkey -> Hvs. run_blocks.
  destruct (decide (0 < size w)) as [_|Hsz].
  - rewrite Hkey. simpl. by rewrite Hvs.
  - apply lookup_lt_Some in Hkey.
    unfold size, set_size in Hsz. simpl in *. lia.
Qed.

Lemma next_task_to_finished rnd tm :
  state tm = REDUCING →
  reduce_iter tm = Some [] →
  working_reduces tm = Some ∅ →
  next_task rnd tm = next_task rnd (set_state FINISHED tm).
Proof.
  destruct tm; simpl; intros -> ->.
  generalize (size_empty (C:=gset K2)). generalize (∅ : gset K2) as w.
  intros w Hsz ->. run_blocks.
  rewrite decide_False; [done|]. rewrite Hsz. lia.
Qed.

Lemma next_task_finished rnd tm :
  state tm = FINISHED →
  next_task rnd tm
  = (Ret (Some (COMMAND.disconnect, None)),
     set_server (Server_handle_close (server tm)) tm).
Proof. destruct tm; simpl; intros ->. reflexivity. Qed.

(** *** A block only acts in its own phase *)

Lemma next_task_START_spec tm :
  next_task_START tm
  = (Ret tt,
     if decide (state tm = START) then
       set_state MAPPING
         (set_map_results ∅
            (set_working_maps ∅
               (set_map_iter (iter_keys (datasource tm)) tm)))
     else tm).
Proof. destruct tm as [? ? [] ? ? ? ? ? ?]; reflexivity. Qed.

Lemma next_task_MAPPING_other rnd tm :
  state tm ≠ MAPPING → next_task_MAPPING rnd tm = (Ret None, tm).
Proof. destruct tm as [? ? [] ? ? ? ? ? ?]; simpl; done. Qed.

Lemma next_task_REDUCING_other rnd tm :
  state tm ≠ REDUCING → next_task_REDUCING rnd tm = (Ret None, tm).
Proof. destruct tm as [? ? [] ? ? ? ? ? ?]; simpl; done. Qed.

Lemma next_task_FINISHED_state tm :
  state (state_of (next_task_FINISHED tm)) = state tm.
Proof. destruct tm as [? ? [] ? ? ? ? ? ?]; reflexivity. Qed.

Lemma empty_of_size (w : gset K) : ¬ 0 < size w → w = ∅.
Proof. intros Hsz. apply leibniz_equiv, size_empty_inv. lia. Qed.

Lemma empty_of_size2 (w : gset K2) : ¬ 0 < size w → w = ∅.
Proof. intros Hsz. apply leibniz_equiv, size_empty_inv. lia. Qed.

(** The MAPPING block keeps the phase, or moves it to REDUCING; it moves
    it exactly when it falls through, which needs the iterator exhausted
    and the working set empty. *)
Lemma next_task_MAPPING_spec rnd tm r tm' :
  state tm = MAPPING →
  next_task_MAPPING rnd tm = (r, tm') →
  (state tm' = MAPPING ∧ r ≠ Ret None)
  ∨ (state tm' = REDUCING
     ∧ map_iter tm = Some [] ∧ working_maps tm = Some ∅
     ∧ map_iter tm' = Some [] ∧ working_maps tm' = Some ∅).
Proof.
  destruct tm as [ds srv st mi wm mr ri wr res]; simpl; intros ->.
  unfold next_task_MAPPING.
  cbv [bind get modify ret raise attr getitem random_choice]; simpl.
  destruct mi as [[|k rest]|]; simpl.
  - destruct wm as [w|]; simpl.
    + destruct (decide (0 < size w)) as [Hsz|Hsz].
      * destruct (elements w !! _); simpl.
        -- destruct (ds !! _); simpl; intros [= <- <-]; left; done.
        -- intros [= <- <-]; left; done.
      * apply empty_of_size in Hsz as ->.
        destruct mr; simpl; intros [= <- <-]; right; done.
    + intros [= <- <-]; left; done.
  - destruct wm as [w|]; simpl.
    + destruct (ds !! k); simpl; intros [= <- <-]; left; done.
    + intros [= <- <-]; left; done.
  - intros [= <- <-]; left; done.
Qed.

Lemma next_task_REDUCING_spec rnd tm r tm' :
  state tm = REDUCING →
  next_task_REDUCING rnd tm = (r, tm') →
  (state tm' = REDUCING ∧ r ≠ Ret None)
  ∨ (state tm' = FINISHED ∧ r = Ret None
     ∧ reduce_iter tm = Some [] ∧ working_reduces tm = Some ∅
     ∧ tm' = set_state FINISHED tm).
Proof.
  destruct tm as [ds srv st mi wm mr ri wr res]; simpl; intros ->.
  unfold next_task_REDUCING.
  cbv [bind get modify ret raise attr getitem random_choice]; simpl.
  destruct ri as [[|item rest]|]; simpl.
  - destruct wr as [w|]; simpl.
    + destruct (decide (0 < size w)) as [Hsz|Hsz].
      * destruct (elements w !! _); simpl.
        -- destruct mr as [mr|]; simpl.
           ++ destruct (mr !! _); simpl; intros [= <- <-]; left; done.
           ++ intros [= <- <-]; left; done.
        -- intros [= <- <-]; left; done.
      * apply empty_of_size2 in Hsz as ->.
        intros [= <- <-]; right; done.
    + intros [= <- <-]; left; done.
  - destruct wr as [w|]; simpl; intros [= <- <-]; left; done.
  - intros [= <- <-]; left; done.
Qed.

(** [next_task] as the chain of its four blocks. *)
Lemma next_task_chain rnd tm :
  next_task rnd tm
  = match next_task_MAPPING rnd (state_of (next_task_START tm)) with
    | (Ret (Some t), tm2) => (Ret (Some t), tm2)
    | (Ret None, tm2) =>
        match next_task_REDUCING rnd tm2 with
        | (Ret (Some t), tm3) => (Ret (Some t), tm3)
        | (Ret None, tm3) => next_task_FINISHED tm3
        | (Raise e, tm3) => (Raise e, tm3)
        end
    | (Raise e, tm2) => (Raise e, tm2)
    end.
Proof.
  unfold next_task. unfold bind at 1. rewrite next_task_START_spec.
  unfold state_of; simpl. unfold bind at 1.
  destruct (next_task_MAPPING rnd _) as [[[t|]|e] tm2]; try reflexivity.
  unfold bind at 1.
  destruct (next_task_REDUCING rnd tm2) as [[[t|]|e] tm3]; reflexivity.
Qed.

(** From REDUCING on, a call of [next_task] keeps the phase or finishes. *)
Lemma next_task_phase_REDUCING rnd tm :
  state tm = REDUCING →
  state (state_of (next_task rnd tm)) = REDUCING
  ∨ (state (state_of (next_task rnd tm)) = FINISHED
     ∧ reduce_iter tm = Some [] ∧ working_reduces tm = Some ∅).
Proof.
  intros Hst. rewrite next_task_chain, next_task_START_spec.
  unfold state_of at 2; simpl. rewrite decide_False by congruence.
  rewrite next_task_MAPPING_other by congruence.
  destruct (next_task_REDUCING rnd tm) as [r tm3] eqn:E.
  destruct (next_task_REDUCING_spec rnd tm r tm3 Hst E)
    as [[Hst3 Hr]|(Hst3 & -> & Hit & Hw & ->)].
  - left. destruct r as [[t|]|e]; simpl; done.
  - right. rewrite next_task_FINISHED_state. done.
Qed.

Lemma next_task_phase_FINISHED rnd tm :
  state tm = FINISHED → state (state_of (next_task rnd tm)) = FINISHED.
Proof. intros Hst. by rewrite next_task_finished. Qed.

Lemma next_task_phase_MAPPING rnd tm :
  state tm = MAPPING →
  state (state_of (next_task rnd tm)) = MAPPING
  ∨ ((2 ≤ phase_rank (state (state_of (next_task rnd tm))))%nat
     ∧ map_iter tm = Some [] ∧ working_maps tm = Some ∅).
Proof.
  intros Hst. rewrite next_task_chain, next_task_START_spec.
  unfold state_of at 2 4; simpl. rewrite decide_False by congruence.
  destruct (next_task_MAPPING rnd tm) as [r tm2] eqn:E.
  destruct (next_task_MAPPING_spec rnd tm r tm2 Hst E)
    as [[Hst2 Hr]|(Hst2 & Hit & Hw & _)].
  - left. destruct r as [[t|]|e]; simpl; done.
  - right. split; [|done].
    destruct r as [[t|]|e]; simpl; try (by rewrite Hst2; simpl; lia).
    destruct (next_task_REDUCING rnd tm2) as [r3 tm3] eqn:E3.
    destruct (next_task_REDUCING_spec rnd tm2 r3 tm3 Hst2 E3)
      as [[Hst3 Hr]|(Hst3 & -> & _ & _ & ->)].
    + destruct r3 as [[t|]|e]; simpl; try done; rewrite Hst3; simpl; lia.
    + rewrite next_task_FINISHED_state. simpl. lia.
Qed.

Lemma next_task_phase_START rnd tm :
  state tm = START → state (state_of (next_task rnd tm)) ≠ START.
Proof.
  intros Hst. rewrite next_task_start by done.
  match goal with |- context [next_task rnd ?t] => set (tm1 := t) end.
  assert (Hst1 : state tm1 = MAPPING) by reflexivity.
  destruct (next_task_phase_MAPPING rnd tm1 Hst1) as [->|[Hr _]]; [done|].
  intros E. rewrite E in Hr. simpl in Hr. lia.
Qed.

Lemma map_done_state (data : K * gmap K2 (list V2)) tm :
  state (state_of (map_done data tm)) = state tm.
Proof.
  destruct (working_maps tm) as [w|] eqn:Hw.
  - destruct (decide (data.1 ∈ w)) as [Hin|Hnin].
    + destruct (map_results tm) as [mr|] eqn:Hmr.
      * destruct (map_done_accepted_appends_aux tm w mr data Hw Hmr Hin)
          as [mr' ->]. by destruct tm.
      * unfold map_done. unfold bind at 1, attr at 1. rewrite Hw.
        rewrite decide_True by done.
        destruct (map_to_list data.2) as [|item items]; simpl.
        -- unfold bind, ret, attr, modify. rewrite Hw. by destruct tm.
        -- unfold bind at 1. unfold bind at 1. unfold bind at 1.
           unfold attr at 1. by rewrite Hmr.
    + unfold map_done, bind, attr. rewrite Hw. by rewrite decide_False.
  - unfold map_done, bind, attr. by rewrite Hw.
Qed.

Lemma reduce_done_state (data : K2 * R) tm :
  state (state_of (reduce_done data tm)) = state tm.
Proof.
  destruct tm as [? ? ? ? ? ? ? [w|] [res|]];
    unfold reduce_done, bind, attr, modify, ret; simpl;
    try destruct (decide (data.1 ∈ w)); reflexivity.
Qed.

(** One call never lowers the phase. *)
Lemma do_call_monotone c tm :
  (phase_rank (state tm) ≤ phase_rank (state (do_call c tm)))%nat.
Proof.
  destruct c as [rnd|data|data]; simpl.
  - destruct (state tm) eqn:Hst; simpl; try lia.
    + destruct (next_task_phase_MAPPING rnd tm Hst) as [->|[? _]];
        simpl; lia.
    + destruct (next_task_phase_REDUCING rnd tm Hst) as [->|[-> _]];
        simpl; lia.
    + rewrite next_task_phase_FINISHED by done. simpl. lia.
  - by rewrite map_done_state.
  - by rewrite reduce_done_state.
Qed.

Lemma phase_trace_bound calls : ∀ tm,
  Forall (λ p, (phase_rank (state tm) ≤ phase_rank p)%nat)
         (phase_trace calls tm).
Proof.
  induction calls as [|c calls IH]; intros tm; simpl.
  - by constructor.
  - constructor; [done|].
    eapply Forall_impl; [apply IH|]. simpl. intros p Hp.
    pose proof (do_call_monotone c tm). lia.
Qed.

Lemma phase_trace_sorted calls : ∀ tm,
  StronglySorted (λ p q, (phase_rank p ≤ phase_rank q)%nat)
                 (phase_trace calls tm).
Proof.
  induction calls as [|c calls IH]; intros tm; simpl.
  - repeat constructor.
  - constructor; [apply IH|].
    eapply Forall_impl; [apply phase_trace_bound|]. simpl. intros p Hp.
    pose proof (do_call_monotone c tm). lia.
Qed.

(** *** The invariant of the task manager *)

Lemma choice_in_set `{Countable A} (w : gset A) rnd :
  w ≠ ∅ → ∃ key, elements w !! (rnd `mod` length (elements w)) = Some key
                 ∧ key ∈ w.
Proof.
  intros Hne.
  assert (Hlen : (0 < length (elements w))%nat).
  { destruct (elements w) eqn:E; simpl; [|lia].
    apply elements_empty_inv in E. apply leibniz_equiv in E. done. }
  destruct (lookup_lt_is_Some_2 (elements w) (rnd `mod` length (elements w)))
    as [key Hkey].
  { apply Nat.mod_upper_bound. lia. }
  exists key. split; [done|].
  apply elem_of_elements. by eapply list_elem_of_lookup_2.
Qed.

Lemma next_task_inv_FINISHED rnd tm :
  state tm = FINISHED → tm_inv tm →
  ∃ reply tm', next_task rnd tm = (Ret (Some reply), tm')
               ∧ tm_inv tm' ∧ datasource tm' = datasource tm.
Proof.
  intros Hst Hinv. rewrite next_task_finished by done.
  eexists _, _. split; [done|]. split; [|by destruct tm].
  revert Hinv. unfold tm_inv, map_side_ok, reduce_side_ok.
  destruct tm; simpl in *. by subst.
Qed.

Lemma next_task_inv_REDUCING rnd tm :
  state tm = REDUCING → tm_inv tm →
  ∃ reply tm', next_task rnd tm = (Ret (Some reply), tm')
               ∧ tm_inv tm' ∧ datasource tm' = datasource tm.
Proof.
  intros Hst Hinv. pose proof Hinv as Hinv0.
  unfold tm_inv in Hinv. rewrite Hst in Hinv.
  destruct Hinv as
    [Hmap (Hit & Hwm & rest & w & res & mr & Hri & Hwr & Hres & Hmr
           & Hitems & Hkeys)].
  destruct rest as [|item rest].
  - destruct (decide (w = ∅)) as [->|Hne].
    + rewrite next_task_to_finished by done.
      destruct (next_task_inv_FINISHED rnd (set_state FINISHED tm))
        as (reply & tm' & -> & Hinv' & Hds).
      * by destruct tm.
      * unfold tm_inv, map_side_ok, reduce_side_ok in *.
        destruct tm; simpl in *. subst. naive_solver.
      * eexists _, _. split; [done|]. split; [done|]. by destruct tm.
    + destruct (choice_in_set w rnd Hne) as (key & Hkey & Hin).
      destruct (Hkeys key Hin) as [vs Hvs].
      erewrite next_task_reissue_reduce by done.
      eexists _, _. done.
  - rewrite (next_task_fresh_reduce rnd tm item rest w) by done.
    eexists _, _. split; [done|]. split; [|by destruct tm].
    unfold tm_inv, map_side_ok, reduce_side_ok in *.
    destruct tm; simpl in *. subst. split; [done|].
    split; [done|]. split; [done|].
    exists rest, ({[item.1]} ∪ w), res, mr.
    repeat split; try done.
    + intros it Hit'. apply Hitems. by right.
    + intros k [->%elem_of_singleton|Hk]%elem_of_union; [|by apply Hkeys].
      apply Hitems. by left.
Qed.

Lemma next_task_inv_MAPPING rnd tm :
  state tm = MAPPING → tm_inv tm →
  ∃ reply tm', next_task rnd tm = (Ret (Some reply), tm')
               ∧ tm_inv tm' ∧ datasource tm' = datasource tm.
Proof.
  intros Hst Hinv. pose proof Hinv as Hinv0.
  unfold tm_inv in Hinv. rewrite Hst in Hinv.
  destruct Hinv as (rest & w & mr & Hmi & Hwm & Hmr & Hrest & Hkeys).
  destruct rest as [|k rest].
  - destruct (decide (w = ∅)) as [->|Hne].
    + rewrite (next_task_to_reducing rnd tm mr) by done.
      match goal with |- context [next_task rnd ?t] => set (tm1 := t) end.
      destruct (next_task_inv_REDUCING rnd tm1)
        as (reply & tm' & -> & Hinv' & Hds).
      * by destruct tm.
      * unfold tm1, tm_inv, map_side_ok, reduce_side_ok in *.
        destruct tm; simpl in *. subst. split.
        -- exists [], ∅, mr. done.
        -- split; [done|]. split; [done|].
           exists (map_to_list mr), ∅, ∅, mr. repeat split; try done.
           intros [k vs] Hin%elem_of_map_to_list. simpl. by exists vs.
      * eexists _, _. split; [done|]. split; [done|].
        rewrite Hds. by destruct tm.
    + destruct (choice_in_set w rnd Hne) as (key & Hkey & Hin).
      destruct (Hkeys key Hin) as [v Hv].
      erewrite next_task_reissue_map by done.
      eexists _, _. done.
  - destruct (Hrest k) as [v Hv]; [by left|].
    rewrite (next_task_fresh_map rnd tm k rest w v) by done.
    eexists _, _. split; [done|]. split; [|by destruct tm].
    unfold tm_inv, map_side_ok in *.
    destruct tm; simpl in *. subst.
    exists rest, ({[k]} ∪ w), mr. repeat split; try done.
    + intros k' Hk'. apply Hrest. by right.
    + intros k' [->%elem_of_singleton|Hk']%elem_of_union; [|by apply Hkeys].
      by exists v.
Qed.

Lemma next_task_inv_START rnd tm :
  state tm = START →
  ∃ reply tm', next_task rnd tm = (Ret (Some reply), tm')
               ∧ tm_inv tm' ∧ datasource tm' = datasource tm.
Proof.
  intros Hst. rewrite next_task_start by done.
  match goal with |- context [next_task rnd ?t] => set (tm1 := t) end.
  destruct (next_task_inv_MAPPING rnd tm1)
    as (reply & tm' & -> & Hinv' & Hds).
  - by destruct tm.
  - unfold tm1, tm_inv, map_side_ok. destruct tm; simpl in *. subst.
    exists (iter_keys datasource0), ∅, ∅. repeat split; try done.
    intros k Hk. unfold iter_keys in Hk.
    apply list_elem_of_fmap in Hk as ([k' v] & -> & Hin).
    apply elem_of_map_to_list in Hin. by exists v.
  - eexists _, _. split; [done|]. split; [done|].
    rewrite Hds. by destruct tm.
Qed.

(** In a state the task manager can reach, [next_task] never raises and
    never falls off its end: it returns a command. *)
Lemma next_task_inv rnd tm :
  tm_inv tm →
  ∃ reply tm', next_task rnd tm = (Ret (Some reply), tm')
               ∧ tm_inv tm' ∧ datasource tm' = datasource tm.
Proof.
  intros Hinv. destruct (state tm) eqn:Hst.
  - by apply next_task_inv_START.
  - by apply next_task_inv_MAPPING.
  - by apply next_task_inv_REDUCING.
  - by apply next_task_inv_FINISHED.
Qed.

Lemma map_done_inv (data : K * gmap K2 (list V2)) tm :
  tm_inv tm → tm_inv (state_of (map_done data tm)).
Proof.
  intros Hinv. destruct (state tm) eqn:Hst.
  - unfold tm_inv. by rewrite map_done_state, Hst.
  - pose proof Hinv as Hinv0. unfold tm_inv in Hinv. rewrite Hst in Hinv.
    destruct Hinv as (rest & w & mr & Hmi & Hwm & Hmr & Hrest & Hkeys).
    destruct (decide (data.1 ∈ w)) as [Hin|Hnin].
    + destruct (map_done_accepted_appends_aux tm w mr data Hwm Hmr Hin)
        as [mr' ->].
      unfold tm_inv, map_side_ok, state_of. destruct tm; simpl in *. subst.
      exists rest, (w ∖ {[data.1]}), mr'. repeat split; try done.
      intros k Hk. apply Hkeys. set_solver.
    + by rewrite (map_done_stale_is_noop_aux tm w data Hwm Hnin).
  - pose proof Hinv as Hinv0. unfold tm_inv in Hinv. rewrite Hst in Hinv.
    destruct Hinv as [_ (_ & Hwm & _)].
    by rewrite (map_done_stale_is_noop_aux tm ∅ data Hwm).
  - pose proof Hinv as Hinv0. unfold tm_inv in Hinv. rewrite Hst in Hinv.
    destruct Hinv as [_ [(_ & Hwm & _) _]].
    by rewrite (map_done_stale_is_noop_aux tm ∅ data Hwm).
Qed.

Lemma reduce_done_cases (data : K2 * R) tm :
  reduce_done data tm = (Ret tt, tm)
  ∨ reduce_done data tm = (Raise AttributeError, tm)
  ∨ ∃ w res, working_reduces tm = Some w ∧ results tm = Some res
             ∧ data.1 ∈ w
             ∧ reduce_done data tm
               = (Ret tt, set_working_reduces (w ∖ {[data.1]})
                            (set_results (<[data.1 := data.2]> res) tm)).
Proof.
  destruct tm as [? ? ? ? ? ? ? [w|] [res|]];
    unfold reduce_done, bind, attr, modify, ret; simpl;
    try destruct (decide (data.1 ∈ w)); eauto 10.
Qed.

Lemma reduce_done_inv (data : K2 * R) tm :
  tm_inv tm → tm_inv (state_of (reduce_done data tm)).
Proof.
  intros Hinv.
  destruct (reduce_done_cases data tm)
    as [->|[->|(w & res & Hw & Hres & Hin & ->)]]; try done.
  unfold state_of; simpl.
  unfold tm_inv, map_side_ok, reduce_side_ok in *.
  destruct tm as [ds srv [] mi wm mr ri wr rs]; simpl in *; subst; try done.
  - destruct Hinv as [Hmap (Hit & Hwm & rest & w' & res' & mr' & Hri & Hwr
                          & Hres' & Hmr & Hitems & Hkeys)].
    simplify_eq. split; [done|]. split; [done|]. split; [done|].
    exists rest, (w' ∖ {[data.1]}), (<[data.1:=data.2]> res'), mr'.
    repeat split; try done. intros k Hk. apply Hkeys. set_solver.
  - destruct Hinv as (_ & _ & _ & Hwr). simplify_eq. set_solver.
Qed.

Lemma do_call_inv c tm : tm_inv tm → tm_inv (do_call c tm).
Proof.
  intros Hinv. destruct c as [rnd|data|data]; simpl.
  - destruct (next_task_inv rnd tm Hinv) as (reply & tm' & -> & Hinv' & _).
    done.
  - by apply map_done_inv.
  - by apply reduce_done_inv.
Qed.

Lemma do_calls_inv calls : ∀ tm,
  tm_inv tm → tm_inv (do_calls calls tm).
Proof.
  induction calls as [|c calls IH]; intros tm Hinv; [done|].
  simpl. apply IH. by apply do_call_inv.
Qed.

Lemma tm_inv_init (ds : gmap K V) srv :
  tm_inv (TaskManager_init (K2:=K2) (V2:=V2) (R:=R) ds srv).
Proof. done. Qed.

(** C3: the phase follows START, MAPPING, REDUCING, FINISHED and never
    regresses.  Along every sequence of [next_task], [map_done] and
    [reduce_done] calls on a fresh task manager the observed phases start
    with START and are ordered; only [next_task] changes the phase; MAPPING
    is left only with the dataset iterator exhausted and the map working
    set empty, REDUCING only for FINISHED and with the reduce iterator
    exhausted and the reduce working set empty; FINISHED is never left; and
    whenever REDUCING or FINISHED is observed the map side is exhausted and
    empty. *)
Theorem phase_sequence (ds : gmap K V) (srv : Server) calls :
  head (phase_trace calls (TaskManager_init ds srv)) = Some START
  ∧ StronglySorted (λ p q, (phase_rank p ≤ phase_rank q)%nat)
      (phase_trace calls (TaskManager_init ds srv))
  ∧ (∀ c tm,
       state (do_call c tm) ≠ state tm → ∃ rnd, c = NextTask rnd)
  ∧ (∀ c tm,
       state tm = MAPPING → state (do_call c tm) ≠ MAPPING →
       map_iter tm = Some [] ∧ working_maps tm = Some ∅)
  ∧ (∀ c tm,
       state tm = REDUCING → state (do_call c tm) ≠ REDUCING →
       state (do_call c tm) = FINISHED
       ∧ reduce_iter tm = Some [] ∧ working_reduces tm = Some ∅)
  ∧ (∀ c tm,
       state tm = FINISHED → state (do_call c tm) = FINISHED)
  ∧ ((2 ≤ phase_rank (state (do_calls calls (TaskManager_init ds srv))))%nat →
       map_iter (do_calls calls (TaskManager_init ds srv)) = Some []
       ∧ working_maps (do_calls calls (TaskManager_init ds srv)) = Some ∅)
  ∧ (state (do_calls calls (TaskManager_init ds srv)) = FINISHED →
       reduce_iter (do_calls calls (TaskManager_init ds srv)) = Some []
       ∧ working_reduces (do_calls calls (TaskManager_init ds srv)) = Some ∅).
Proof.
  split; [by destruct calls|].
  split; [apply phase_trace_sorted|].
  split.
  { intros [rnd|data|data] tm Hne; [by exists rnd| |]; exfalso; apply Hne.
    - apply map_done_state.
    - apply reduce_done_state. }
  split.
  { intros [rnd|data|data] tm Hst Hne; simpl in Hne.
    - destruct (next_task_phase_MAPPING rnd tm Hst) as [?|[_ ?]]; done.
    - by rewrite map_done_state in Hne.
    - by rewrite reduce_done_state in Hne. }
  split.
  { intros [rnd|data|data] tm Hst Hne; simpl in *.
    - destruct (next_task_phase_REDUCING rnd tm Hst) as [?|[? ?]]; done.
    - by rewrite map_done_state in Hne.
    - by rewrite reduce_done_state in Hne. }
  split.
  { intros [rnd|data|data] tm Hst; simpl.
    - by apply next_task_phase_FINISHED.
    - by rewrite map_done_state.
    - by rewrite reduce_done_state. }
  pose proof (do_calls_inv calls _ (tm_inv_init ds srv)) as Hinv.
  revert Hinv. generalize (do_calls calls (TaskManager_init ds srv)).
  intros tm Hinv. unfold tm_inv, reduce_side_ok in Hinv.
  destruct (state tm); simpl; split; try done; try lia; intros _;
    naive_solver.
Qed.

(** C4: re-issue of stragglers.  In MAPPING with the iterator exhausted
    and a non-empty working set (of dataset keys), [next_task] returns a
    MAP task for the member of the working set that the draw selects, with
    its dataset value, and changes nothing; with one key in flight that key
    is returned; every member is returned for some draw; and the phase is
    left only when the working set is empty. *)
Theorem straggler_reissue (rnd : nat) tm (w : gset K) :
  state tm = MAPPING →
  map_iter tm = Some [] →
  working_maps tm = Some w →
  (∀ k, k ∈ w → is_Some (datasource tm !! k)) →
  (w ≠ ∅ →
     ∃ key v,
       next_task rnd tm
       = (Ret (Some (COMMAND.map, Some (MapData key v))), tm)
       ∧ key ∈ w ∧ datasource tm !! key = Some v
       ∧ elements w !! (rnd `mod` size w) = Some key
       ∧ ∀ k0, w = {[k0]} → key = k0)
  ∧ (∀ key, key ∈ w →
       ∃ rnd' v,
         next_task rnd' tm
         = (Ret (Some (COMMAND.map, Some (MapData key v))), tm))
  ∧ (state (state_of (next_task rnd tm)) ≠ MAPPING → w = ∅)
  ∧ (w = ∅ → is_Some (map_results tm) →
       (2 ≤ phase_rank (state (state_of (next_task rnd tm))))%nat).
Proof.
  intros Hst Hit Hw Hkeys. split; [|split; [|split]].
  - intros Hne. destruct (choice_in_set w rnd Hne) as (key & Hkey & Hin).
    destruct (Hkeys key Hin) as [v Hv]. exists key, v.
    split; [by eapply next_task_reissue_map|].
    repeat split; try done. intros k0 ->. set_solver.
  - intros key Hin. destruct (Hkeys key Hin) as [v Hv].
    apply elem_of_elements, list_elem_of_lookup_1 in Hin as [i Hi].
    exists i, v. eapply next_task_reissue_map; try done.
    rewrite Nat.mod_small; [done|]. by eapply lookup_lt_Some.
  - intros Hne.
    destruct (next_task_phase_MAPPING rnd tm Hst) as [?|(_ & _ & Hw')];
      [done|]. congruence.
  - intros -> [mr Hmr].
    rewrite (next_task_to_reducing rnd tm mr) by done.
    match goal with |- context [next_task rnd ?t] => set (tm1 := t) end.
    assert (Hst1 : state tm1 = REDUCING) by reflexivity.
    destruct (next_task_phase_REDUCING rnd tm1 Hst1) as [->|[-> _]];
      simpl; lia.
Qed.

(** The listening socket is closed by the very call of [next_task] that
    answers with the disconnect command. *)
Lemma next_task_finished_closes rnd tm :
  state tm = FINISHED →
  next_task rnd tm
  = (Ret (Some (COMMAND.disconnect, None)),
     set_server {| listening := false |} tm).
Proof. apply next_task_finished. Qed.

End Scheduling.


(** ** The end of the run and failing plug-ins *)

Section Wire_facts.
Context {K V K2 V2 R : Type} `{Countable K, Countable K2}.
Variable password : string.
Variable hmac_sha1_hex : string → string → string.
Variable pickle_dumps : payload K V K2 V2 R → string.
Variable pickle_loads : string → option (payload K V K2 V2 R).
Variable py_int : string → option Z.
Variable Mapper_Map : K → V → list (K2 * V2) * option exn.
Variable Reducer_Reduce : K2 → list V2 → outcome R.

Lemma send_command_frame command data arg (p : Protocol) :
  send_command pickle_dumps command data arg p
  = (Ret tt, set_trace (trace p ++ [Push (wire_frame pickle_dumps command
                                            data arg)]) p).
Proof.
  unfold send_command, wire_frame, push, emit, modify.
  destruct arg as [a|], data as [d|]; try reflexivity;
    destruct (truthy a); reflexivity.
Qed.

Lemma send_command_eq command data arg :
  send_command pickle_dumps command data arg
  = emit (Push (wire_frame pickle_dumps command data arg)).
Proof.
  unfold send_command, wire_frame, push.
  destruct arg as [a|], data as [d|]; try reflexivity;
    destruct (truthy a); reflexivity.
Qed.

Lemma bind_run {S A B} (m : Py S A) (k : A → Py S B) st a st' :
  m st = (Ret a, st') → bind m k st = k a st'.
Proof. unfold bind. by intros ->. Qed.

(** [start_new_task] pushes the frame of whatever [next_task] returns. *)
Lemma start_new_task_run env (sc : ServerChannel K V K2 V2 R) command data tm' :
  next_task (rnd env) (taskmanager sc) = (Ret (Some (command, data)), tm') →
  start_new_task pickle_dumps env sc
  = (Ret tt,
     {| channel_proto :=
          set_trace (trace (channel_proto sc)
                     ++ [Push (wire_frame pickle_dumps command data None)])
                    (channel_proto sc);
        taskmanager := tm' |}).
Proof.
  intros Hnext. unfold start_new_task.
  rewrite (bind_run _ _ sc (Some (command, data)) (set_taskmanager tm' sc))
    by (unfold zoom; by rewrite Hnext).
  unfold zoom. rewrite send_command_frame. by destruct sc.
Qed.


(** A task command that reaches the table of [Protocol.process_command]
    is unknown there: the worker logs and closes. *)
Lemma unknown_command_closes env command data (c : Client) :
  command = COMMAND.map ∨ command = COMMAND.reduce →
  Protocol_process_command password hmac_sha1_hex pickle_dumps
    client_proto set_client_proto Client_handle_close
    (Client_post_auth_init pickle_dumps) env command data c
  = (Ret tt,
     set_client_proto
       (set_trace (trace (client_proto c) ++ [LogCritical; Close])
          (set_connected false (client_proto c))) c).
Proof.
  intros Hc.
  unfold Protocol_process_command, try_except.
  assert (Hd : dispatch
                 [(COMMAND.challenge,
                   respond_to_challenge password hmac_sha1_hex pickle_dumps
                     client_proto set_client_proto
                     (Client_post_auth_init pickle_dumps) env);
                  (COMMAND.disconnect, λ _ _, Client_handle_close)]
                 command data c = (Raise KeyError, c)).
  { by destruct Hc as [-> | ->]. }
  rewrite Hd. simpl.
  unfold bind, zoom, emit, modify, Client_handle_close, close, zoom, bind,
    emit, modify. simpl.
  by rewrite <- app_assoc.
Qed.

(** C8, as the code has it: an error raised by the mapper or the reducer
    is not caught by [call_map] and [call_reduce].  The call raises that
    error and nothing is pushed, so no done-report is sent; in
    [Client.process_command] a [KeyError] is taken for an unknown command
    and the connection is closed, any other error leaves the method. *)
Theorem plugin_error_not_reported (env : Env) (c : Client) :
  (∀ k v ems e, Mapper_Map k v = (ems, Some e) →
     ∃ c',
       call_map pickle_dumps Mapper_Map COMMAND.map (Obj (MapData k v)) c
       = (Raise e, c')
       ∧ trace (client_proto c') = trace (client_proto c)
       ∧ connected (client_proto c') = connected (client_proto c)
       ∧ Client_process_command password hmac_sha1_hex pickle_dumps
           Mapper_Map Reducer_Reduce env COMMAND.map (Obj (MapData k v)) c
         = if is_KeyError e
           then (Ret tt,
                 set_client_proto
                   (set_trace (trace (client_proto c) ++ [LogCritical; Close])
                      (set_connected false (client_proto c'))) c')
           else (Raise e, c'))
  ∧ (∀ k vs e, Reducer_Reduce k vs = Raise e →
       ∃ c',
         call_reduce pickle_dumps Reducer_Reduce COMMAND.reduce
           (Obj (ReduceData k vs)) c
         = (Raise e, c')
         ∧ trace (client_proto c') = trace (client_proto c)
         ∧ connected (client_proto c') = connected (client_proto c)
         ∧ Client_process_command password hmac_sha1_hex pickle_dumps
             Mapper_Map Reducer_Reduce env COMMAND.reduce
             (Obj (ReduceData k vs)) c
           = if is_KeyError e
             then (Ret tt,
                   set_client_proto
                     (set_trace
                        (trace (client_proto c) ++ [LogCritical; Close])
                        (set_connected false (client_proto c'))) c')
             else (Raise e, c')).
Proof.
  split.
  - intros k v ems e HMap.
    exists (if decide (mapper c = None) then set_mapper (Some tt) c else c).
    assert (Hcall :
      call_map pickle_dumps Mapper_Map COMMAND.map (Obj (MapData k v)) c
      = (Raise e,
         if decide (mapper c = None) then set_mapper (Some tt) c else c)).
    { unfold call_map, bind, get, modify, ret, raise. rewrite HMap.
      destruct (decide (mapper c = None)); reflexivity. }
    split; [done|]. split; [by destruct (decide _)|].
    split; [by destruct (decide _)|].
    unfold Client_process_command, try_except.
    match goal with
    | |- context [dispatch ?hs ?c0 ?d0 ?st] =>
        change (dispatch hs c0 d0 st)
          with (call_map pickle_dumps Mapper_Map c0 d0 st)
    end.
    rewrite Hcall. destruct e; try reflexivity.
    simpl. rewrite unknown_command_closes by auto.
    by destruct (decide _).
  - intros k vs e HRed.
    exists (if decide (reducer c = None) then set_reducer (Some tt) c else c).
    assert (Hcall :
      call_reduce pickle_dumps Reducer_Reduce COMMAND.reduce
        (Obj (ReduceData k vs)) c
      = (Raise e,
         if decide (reducer c = None) then set_reducer (Some tt) c else c)).
    { unfold call_reduce, bind, get, modify, ret, raise. rewrite HRed.
      destruct (decide (reducer c = None)); reflexivity. }
    split; [done|]. split; [by destruct (decide _)|].
    split; [by destruct (decide _)|].
    unfold Client_process_command, try_except.
    match goal with
    | |- context [dispatch ?hs ?c0 ?d0 ?st] =>
        change (dispatch hs c0 d0 st)
          with (call_reduce pickle_dumps Reducer_Reduce c0 d0 st)
    end.
    rewrite Hcall. destruct e; try reflexivity.
    simpl. rewrite unknown_command_closes by auto.
    by destruct (decide _).
Qed.

End Wire_facts.

(** ** Evaluations on the concrete setting *)


(** Against C8 as stated: an authenticated worker receives the payload of
    a MAP task and its mapper raises.  The error leaves
    [found_terminator]; the worker has pushed nothing, so no done-report
    was sent.  The same holds for a REDUCE task. *)
Lemma failing_plugin_sends_no_report :
  let receive task :=
    Client_receive Demo.password Demo.hmac_sha1_hex Demo.pickle_dumps
      Demo.pickle_loads Demo.py_int Demo.failing_Map Demo.failing_Reduce
      Demo.env0 task in
  value_of (receive "Ta" Demo.client_awaiting_map)
  = Raise (UserError "mapper failed")
  ∧ trace (client_proto (state_of (receive "Ta" Demo.client_awaiting_map)))
    = [Loads "Ta"; SetTerminator TermNewline]
  ∧ value_of (receive "Ua" Demo.client_awaiting_reduce)
    = Raise (UserError "reducer failed")
  ∧ trace (client_proto
             (state_of (receive "Ua" Demo.client_awaiting_reduce)))
    = [Loads "Ua"; SetTerminator TermNewline]
  ∧ ¬ (∃ data,
         Push data ∈ trace (client_proto
                              (state_of (receive "Ta"
                                           Demo.client_awaiting_map)))).
Proof.
  cbv zeta. repeat split; try (by vm_compute).
  intros [data Hin]. revert Hin. vm_compute.
  intros Hin. repeat (apply elem_of_cons in Hin as [Hin|Hin]; [done|]).
  by apply elem_of_nil in Hin.
Qed.

(** ** Frames and authentication *)

Section Effects.
Context {St : Type} (proto : St → Protocol) (set_proto : Protocol → St → St).
Hypothesis proto_set_proto : ∀ p st, proto (set_proto p st) = p.
Variable ok : effect → bool.
Variable keep : bool.
Hypothesis ok_inline : ∀ e, inline_effect e = true → ok e = true.

Notation rel := (changes ok keep).
Notation pres := (preserves proto rel).

Lemma changes_refl p : rel p p.
Proof. split; [done|]. exists []. by rewrite app_nil_r. Qed.

Lemma changes_trans p1 p2 p3 : rel p1 p2 → rel p2 p3 → rel p1 p3.
Proof.
  intros [Hk1 (n1 & Ht1 & Hf1)] [Hk2 (n2 & Ht2 & Hf2)]. split.
  - intros Hk. destruct (Hk1 Hk), (Hk2 Hk). split; congruence.
  - exists (n1 ++ n2). rewrite Ht2, Ht1, app_assoc. split; [done|].
    by apply Forall_app.
Qed.

Lemma changes_same p p' :
  term p' = term p → mid_command p' = mid_command p → trace p' = trace p →
  rel p p'.
Proof.
  intros Ht Hm Htr. split; [done|]. exists []. by rewrite app_nil_r.
Qed.

Lemma changes_emit p e :
  ok e = true → rel p (set_trace (trace p ++ [e]) p).
Proof.
  intros He. split; [done|]. exists [e]. split; [done|]. by constructor.
Qed.

Lemma preserves_ret {A} (a : A) : pres (ret a).
Proof. intros st. apply changes_refl. Qed.

Lemma preserves_raise {A} e : pres (raise (A:=A) e).
Proof. intros st. apply changes_refl. Qed.

Lemma preserves_bind {A B} (m : Py St A) (k : A → Py St B) :
  pres m → (∀ a, pres (k a)) → pres (bind m k).
Proof.
  intros Hm Hk st. specialize (Hm st). unfold bind, state_of in *.
  destruct (m st) as [[a|e] st1]; simpl in *; [|done].
  eapply changes_trans; [done|]. apply Hk.
Qed.

Lemma preserves_try_except {A} (m h : Py St A) catch :
  pres m → pres h → pres (try_except m catch h).
Proof.
  intros Hm Hh st. specialize (Hm st). unfold try_except, state_of in *.
  destruct (m st) as [[a|e] st1]; simpl in *; [done|].
  destruct (catch e); [|done].
  eapply changes_trans; [done|]. apply Hh.
Qed.

Lemma preserves_get : pres get.
Proof. intros st. apply changes_refl. Qed.

Lemma preserves_self {A} (m : Py Protocol A) :
  (∀ p, rel p (state_of (m p))) → pres (zoom proto set_proto m).
Proof.
  intros Hm st. unfold zoom, state_of in *. specialize (Hm (proto st)).
  destruct (m (proto st)) as [r p']. simpl in *. by rewrite proto_set_proto.
Qed.

Lemma preserves_modify_self (f : Protocol → Protocol) :
  (∀ p, term (f p) = term p ∧ mid_command (f p) = mid_command p
        ∧ trace (f p) = trace p) →
  pres (zoom proto set_proto (modify f)).
Proof.
  intros Hf. apply preserves_self. intros p. unfold state_of; simpl.
  destruct (Hf p) as (? & ? & ?). by apply changes_same.
Qed.

Lemma preserves_emit e :
  ok e = true → pres (zoom proto set_proto (emit e)).
Proof.
  intros He. apply preserves_self. intros p. by apply changes_emit.
Qed.

Lemma preserves_close :
  ok Close = true → pres (zoom proto set_proto close).
Proof.
  intros He. apply preserves_self. intros p. unfold state_of; simpl.
  split; [done|]. exists [Close]. split; [done|]. by constructor.
Qed.

End Effects.

Section Frames.
Context {K V K2 V2 R : Type} `{Countable K, Countable K2}.
Implicit Types (data : cmd_data K V K2 V2 R).
Variable password : string.
Variable hmac_sha1_hex : string → string → string.
Variable pickle_dumps : payload K V K2 V2 R → string.
Variable pickle_loads : string → option (payload K V K2 V2 R).
Variable py_int : string → option Z.

Section Generic.
Context {St : Type} (proto : St → Protocol) (set_proto : Protocol → St → St).
Hypothesis proto_set_proto : ∀ p st, proto (set_proto p st) = p.
Variable handle_close : Py St unit.
Variable post_auth_init : Env → Py St unit.
Variable ok : effect → bool.
Variable keep : bool.
Hypothesis ok_inline : ∀ e, inline_effect e = true → ok e = true.

Notation pres := (preserves proto (changes ok keep)).

Hypothesis handle_close_pres : pres handle_close.
Hypothesis post_auth_init_pres : ∀ env, pres (post_auth_init env).

Lemma preserves_send_command command pl arg :
  pres (zoom proto set_proto (send_command pickle_dumps command pl arg)).
Proof.
  apply preserves_self; [done|]. intros p. rewrite send_command_frame.
  apply changes_emit. by apply ok_inline.
Qed.

Lemma preserves_dispatch
    (handlers : list (string * handler (K:=K) (V:=V) (K2:=K2) (V2:=V2)
                                        (R:=R) (St:=St)))
    command data :
  Forall (λ nh, ∀ c d, pres (nh.2 c d)) handlers →
  pres (dispatch handlers command data).
Proof.
  induction 1 as [|[name h] handlers Hh _ IH]; simpl.
  - apply preserves_raise.
  - destruct (decide (name = command)); [apply Hh|apply IH].
Qed.

Lemma preserves_respond_to_challenge env command data :
  pres (respond_to_challenge password hmac_sha1_hex pickle_dumps proto
          set_proto post_auth_init env command data).
Proof.
  unfold respond_to_challenge. apply preserves_bind.
  - destruct data; [apply preserves_ret..|apply preserves_raise].
  - intros msg. apply preserves_bind; [|intros _; apply post_auth_init_pres].
    apply preserves_send_command.
Qed.

Lemma preserves_verify_auth command data :
  pres (verify_auth password hmac_sha1_hex proto set_proto handle_close
          command data).
Proof.
  unfold verify_auth. apply preserves_bind; [apply preserves_get|].
  intros st. destruct data; try apply handle_close_pres.
  destruct (decide _); [|apply handle_close_pres].
  by apply preserves_modify_self.
Qed.

Lemma preserves_unknown_command :
  pres (exec zoom proto set_proto (emit LogCritical); handle_close).
Proof.
  apply preserves_bind; [|intros _; apply handle_close_pres].
  apply preserves_emit; [done|]. by apply ok_inline.
Qed.

Lemma preserves_Protocol_process_command env command data :
  pres (Protocol_process_command password hmac_sha1_hex pickle_dumps proto
          set_proto handle_close post_auth_init env command data).
Proof.
  unfold Protocol_process_command.
  apply preserves_try_except; [|apply preserves_unknown_command].
  apply preserves_dispatch.
  apply Forall_cons_2; [intros c d; apply preserves_respond_to_challenge|].
  apply Forall_cons_2; [intros c d; apply handle_close_pres|].
  apply Forall_nil_2.
Qed.

Lemma preserves_process_unauthed_command env command data :
  pres (process_unauthed_command password hmac_sha1_hex pickle_dumps proto
          set_proto handle_close post_auth_init env command data).
Proof.
  unfold process_unauthed_command.
  apply preserves_try_except; [|apply preserves_unknown_command].
  apply preserves_dispatch.
  apply Forall_cons_2; [intros c d; apply preserves_respond_to_challenge|].
  apply Forall_cons_2; [intros c d; apply preserves_verify_auth|].
  apply Forall_cons_2; [intros c d; apply handle_close_pres|].
  apply Forall_nil_2.
Qed.

Variable process_command : Env → handler (K:=K) (V:=V) (K2:=K2) (V2:=V2)
                                    (R:=R) (St:=St).

Lemma preserves_decode_command message :
  pres (decode_command (S:=St) message).
Proof.
  unfold decode_command.
  destruct (find_sep message); [apply preserves_ret|apply preserves_raise].
Qed.

Lemma preserves_clear_buffer :
  pres (zoom proto set_proto (modify (set_buffer []))).
Proof. by apply preserves_modify_self. Qed.

(** Before authentication a frame only goes through the table of
    [process_unauthed_command]. *)
Lemma found_terminator_unauthed env st :
  auth (proto st) ≠ Some "Done" →
  found_terminator password hmac_sha1_hex pickle_dumps pickle_loads py_int
    proto set_proto handle_close post_auth_init process_command env st
  = (exec (do cd <- decode_command
                      (String.concat "" (buffer (proto st)));
           process_unauthed_command password hmac_sha1_hex pickle_dumps
             proto set_proto handle_close post_auth_init env cd.1
             (Arg cd.2));
     zoom proto set_proto (modify (set_buffer []))) st.
Proof.
  intros Hauth. unfold found_terminator. unfold bind at 1, get at 1.
  by rewrite decide_True.
Qed.

Lemma found_terminator_unauthed_changes env st :
  auth (proto st) ≠ Some "Done" →
  changes ok keep (proto st)
    (proto (state_of
       (found_terminator password hmac_sha1_hex pickle_dumps pickle_loads
          py_int proto set_proto handle_close post_auth_init
          process_command env st))).
Proof.
  intros Hauth. rewrite found_terminator_unauthed by done.
  apply preserves_bind; [|intros _; apply preserves_clear_buffer].
  apply preserves_bind; [apply preserves_decode_command|].
  intros cd. apply preserves_process_unauthed_command.
Qed.

Hypothesis ok_Loads : ∀ pdata, ok (Loads pdata) = true.
Hypothesis ok_SetTerminator : ∀ t, ok (SetTerminator t) = true.
Hypothesis keep_false : keep = false.
Hypothesis process_command_pres : ∀ env c d, pres (process_command env c d).

Lemma preserves_set_terminator t :
  pres (zoom proto set_proto (set_terminator t)).
Proof.
  apply preserves_self; [done|]. intros p. unfold state_of; simpl.
  split; [by rewrite keep_false|].
  exists [SetTerminator t]. split; [done|]. by constructor.
Qed.

Lemma preserves_set_mid_command x :
  pres (zoom proto set_proto (modify (set_mid_command x))).
Proof.
  apply preserves_self; [done|]. intros p. unfold state_of; simpl.
  split; [by rewrite keep_false|]. exists []. by rewrite app_nil_r.
Qed.

Lemma found_terminator_changes env :
  pres (found_terminator password hmac_sha1_hex pickle_dumps pickle_loads
          py_int proto set_proto handle_close post_auth_init
          process_command env).
Proof.
  intros st.
  destruct (decide (auth (proto st) ≠ Some "Done")) as [Hauth|Hauth];
    [by apply found_terminator_unauthed_changes|].
  unfold found_terminator. unfold bind at 1, get at 1.
  rewrite decide_False by done.
  apply preserves_bind; [|intros _; apply preserves_clear_buffer].
  destruct (decide (mid_command (proto st) = None)).
  - apply preserves_bind; [apply preserves_decode_command|]. intros cl.
    destruct (decide (cl.1 = COMMAND.challenge));
      [apply process_command_pres|].
    destruct (truthy cl.2); [|apply process_command_pres].
    apply preserves_bind.
    { destruct (py_int cl.2); [apply preserves_ret|apply preserves_raise]. }
    intros n0. apply preserves_bind; [apply preserves_set_terminator|].
    intros _. apply preserves_set_mid_command.
  - apply preserves_bind.
    { destruct (decide (auth (proto st) ≠ Some "Done")); [done|].
      apply preserves_ret. }
    intros _.
    apply preserves_bind; [by apply preserves_emit|]. intros _.
    apply preserves_bind.
    { destruct (pickle_loads _); [apply preserves_ret|apply preserves_raise]. }
    intros data. apply preserves_bind; [apply preserves_set_terminator|].
    intros _. apply preserves_bind; [apply preserves_get|]. intros st'.
    apply preserves_bind; [apply preserves_set_mid_command|]. intros _.
    apply process_command_pres.
Qed.

End Generic.

Variable Mapper_Map : K → V → list (K2 * V2) * option exn.
Variable Reducer_Reduce : K2 → list V2 → outcome R.

Section Roles.
Variable ok : effect → bool.
Variable keep : bool.
Hypothesis ok_inline : ∀ e, inline_effect e = true → ok e = true.

Lemma send_challenge_changes nonce p :
  changes ok keep p (state_of (send_challenge pickle_dumps nonce p)).
Proof.
  unfold send_challenge, bind, modify, state_of.
  rewrite send_command_frame. simpl.
  split; [done|]. eexists [_]. split; [done|].
  constructor; [by apply ok_inline|constructor].
Qed.

(** *** The worker *)

Lemma Client_handle_close_pres :
  preserves client_proto (changes ok keep) Client_handle_close.
Proof. apply preserves_close; [done|]. by apply ok_inline. Qed.

Lemma Client_post_auth_init_pres env :
  preserves client_proto (changes ok keep)
    (Client_post_auth_init pickle_dumps env).
Proof.
  unfold Client_post_auth_init. apply preserves_bind; [apply preserves_get|].
  intros c. destruct (auth (client_proto c)) as [a|];
    [destruct (truthy a); [apply preserves_ret|]|];
    (apply preserves_self; [done|]); intros p; apply send_challenge_changes.
Qed.

Lemma call_map_pres command data :
  preserves client_proto (changes ok keep)
    (call_map pickle_dumps Mapper_Map command data).
Proof.
  unfold call_map.
  destruct data as [| |[k v| | |]]; try apply preserves_raise.
  apply preserves_bind.
  - apply preserves_bind; [apply preserves_get|]. intros c.
    destruct (decide (mapper c = None)); [|apply preserves_ret].
    intros st. apply changes_refl.
  - intros _. destruct (Mapper_Map k v) as [ems [e|]];
      [apply preserves_raise|by apply preserves_send_command].
Qed.

Lemma call_reduce_pres command data :
  preserves client_proto (changes ok keep)
    (call_reduce pickle_dumps Reducer_Reduce command data).
Proof.
  unfold call_reduce.
  destruct data as [| |[|k vs| |]]; try apply preserves_raise.
  apply preserves_bind.
  - apply preserves_bind; [apply preserves_get|]. intros c.
    destruct (decide (reducer c = None)); [|apply preserves_ret].
    intros st. apply changes_refl.
  - intros _. destruct (Reducer_Reduce k vs) as [r|e];
      [by apply preserves_send_command|apply preserves_raise].
Qed.

Lemma Client_process_command_pres env command data :
  preserves client_proto (changes ok keep)
    (Client_process_command password hmac_sha1_hex pickle_dumps Mapper_Map
       Reducer_Reduce env command data).
Proof.
  unfold Client_process_command. apply preserves_try_except.
  - apply preserves_dispatch.
    apply Forall_cons_2; [intros c d; apply call_map_pres|].
    apply Forall_cons_2; [intros c d; apply call_reduce_pres|].
    apply Forall_nil_2.
  - apply preserves_Protocol_process_command; try done.
    + apply Client_handle_close_pres.
    + apply Client_post_auth_init_pres.
Qed.

(** *** The channel of the master *)

Lemma ServerChannel_handle_close_pres :
  preserves (channel_proto (K:=K) (V:=V) (K2:=K2) (V2:=V2) (R:=R))
    (changes ok keep) ServerChannel_handle_close.
Proof. apply preserves_close; [done|]. by apply ok_inline. Qed.

Lemma taskmanager_zoom_pres {A} (m : Py (TaskManager K V K2 V2 R) A) :
  preserves channel_proto (changes ok keep)
    (zoom taskmanager set_taskmanager m).
Proof.
  intros sc. unfold zoom, state_of.
  destruct (m (taskmanager sc)) as [r tm']. simpl. apply changes_refl.
Qed.

Lemma start_new_task_pres env :
  preserves channel_proto (changes ok keep) (start_new_task pickle_dumps env).
Proof.
  unfold start_new_task. apply preserves_bind; [apply taskmanager_zoom_pres|].
  intros [[command pl]|]; [|apply preserves_raise].
  by apply preserves_send_command.
Qed.

Lemma ServerChannel_map_done_pres env command data :
  preserves channel_proto (changes ok keep)
    (ServerChannel_map_done pickle_dumps env command data).
Proof.
  unfold ServerChannel_map_done.
  destruct data as [| |[| |k res|]]; try apply preserves_raise.
  apply preserves_bind; [apply taskmanager_zoom_pres|].
  intros _. apply start_new_task_pres.
Qed.

Lemma ServerChannel_reduce_done_pres env command data :
  preserves channel_proto (changes ok keep)
    (ServerChannel_reduce_done pickle_dumps env command data).
Proof.
  unfold ServerChannel_reduce_done.
  destruct data as [| |[| | |k r]]; try apply preserves_raise.
  apply preserves_bind; [apply taskmanager_zoom_pres|].
  intros _. apply start_new_task_pres.
Qed.

Lemma ServerChannel_process_command_pres env command data :
  preserves channel_proto (changes ok keep)
    (ServerChannel_process_command password hmac_sha1_hex pickle_dumps env
       command data).
Proof.
  unfold ServerChannel_process_command. apply preserves_try_except.
  - apply preserves_dispatch.
    apply Forall_cons_2; [intros c d; apply ServerChannel_map_done_pres|].
    apply Forall_cons_2; [intros c d; apply ServerChannel_reduce_done_pres|].
    apply Forall_nil_2.
  - apply preserves_Protocol_process_command; try done.
    + apply ServerChannel_handle_close_pres.
    + apply start_new_task_pres.
Qed.

End Roles.

Lemma frame_safe_of_changes p p' :
  changes not_fatal false p p' →
  (auth p ≠ Some "Done" → changes inline_effect true p p') →
  frame_safe p p'.
Proof.
  intros [_ (new & Htr & Hnew)] Hin. exists new. split; [done|].
  assert (Hfatal : LogFatal ∉ new).
  { intros Hel. by eapply Forall_forall in Hnew; [|done]. }
  destruct (decide (auth p = Some "Done")) as [Hauth|Hauth]; [done|].
  destruct (Hin Hauth) as [Hkeep (new' & Htr' & Hnew')].
  assert (new' = new) as ->.
  { apply (app_inv_head (trace p)). by rewrite <- Htr, <- Htr'. }
  repeat split; try done; try (by apply Hkeep).
  - intros pdata Hel. by eapply Forall_forall in Hnew'; [|done].
  - intros t Hel. by eapply Forall_forall in Hnew'; [|done].
Qed.

Lemma inline_not_fatal e : inline_effect e = true → not_fatal e = true.
Proof. by destruct e. Qed.

Lemma changes_after_collect ok keep p message p' :
  changes ok keep (set_buffer (buffer p ++ [message]) p) p' →
  changes ok keep p p'.
Proof. done. Qed.

Lemma Client_receive_safe env message (c : Client) :
  frame_safe (client_proto c)
    (client_proto
       (state_of (Client_receive password hmac_sha1_hex pickle_dumps
                    pickle_loads py_int Mapper_Map Reducer_Reduce env
                    message c))).
Proof.
  set (c1 := set_client_proto
               (set_buffer (buffer (client_proto c) ++ [message])
                  (client_proto c)) c).
  change (Client_receive password hmac_sha1_hex pickle_dumps pickle_loads
            py_int Mapper_Map Reducer_Reduce env message c)
    with (Client_found_terminator password hmac_sha1_hex pickle_dumps
            pickle_loads py_int Mapper_Map Reducer_Reduce env c1).
  apply frame_safe_of_changes.
  - apply (changes_after_collect _ _ _ message).
    apply (found_terminator_changes client_proto set_client_proto);
      try done.
    + apply inline_not_fatal.
    + apply Client_handle_close_pres, inline_not_fatal.
    + intros e. apply Client_post_auth_init_pres, inline_not_fatal.
    + intros e cm d. apply Client_process_command_pres, inline_not_fatal.
  - intros Hauth. apply (changes_after_collect _ _ _ message).
    apply (found_terminator_unauthed_changes client_proto set_client_proto);
      try done.
    + by apply Client_handle_close_pres.
    + intros e. by apply Client_post_auth_init_pres.
Qed.

Lemma ServerChannel_receive_safe env message
    (sc : ServerChannel K V K2 V2 R) :
  frame_safe (channel_proto sc)
    (channel_proto
       (state_of (ServerChannel_receive password hmac_sha1_hex pickle_dumps
                    pickle_loads py_int env message sc))).
Proof.
  set (sc1 := set_channel_proto
                (set_buffer (buffer (channel_proto sc) ++ [message])
                   (channel_proto sc)) sc).
  change (ServerChannel_receive password hmac_sha1_hex pickle_dumps
            pickle_loads py_int env message sc)
    with (ServerChannel_found_terminator password hmac_sha1_hex pickle_dumps
            pickle_loads py_int env sc1).
  apply frame_safe_of_changes.
  - apply (changes_after_collect _ _ _ message).
    apply (found_terminator_changes channel_proto set_channel_proto);
      try done.
    + apply inline_not_fatal.
    + apply ServerChannel_handle_close_pres, inline_not_fatal.
    + intros e. apply start_new_task_pres, inline_not_fatal.
    + intros e cm d.
      apply ServerChannel_process_command_pres, inline_not_fatal.
  - intros Hauth. apply (changes_after_collect _ _ _ message).
    apply (found_terminator_unauthed_changes channel_proto
             set_channel_proto); try done.
    + by apply ServerChannel_handle_close_pres.
    + intros e. by apply start_new_task_pres.
Qed.

Lemma visits_Forall {St} (step : Env → string → Py St unit)
    (P : St → St → Prop) frames :
  (∀ env message st, P st (state_of (step env message st))) →
  ∀ st, Forall (λ ab, P ab.1 ab.2) (visits step frames st).
Proof.
  intros Hstep. induction frames as [|[env message] frames IH]; intros st.
  - constructor.
  - simpl. constructor; [apply Hstep|apply IH].
Qed.

(** C10: payload bytes are unpickled only on an authenticated channel.
    For a worker and for a channel of the master, along every sequence of
    frames and from every state: handling a frame never reaches the fatal
    exit; it unpickles or switches the terminator only if the channel was
    authenticated when the frame arrived; on a channel that was not, it
    leaves the terminator and the pending command as they are and does
    only what an inline frame does (push, close, log an unknown command),
    the frame being decoded as an inline command and argument and given to
    [process_unauthed_command]. *)
Theorem unpickle_only_when_authenticated
    (frames : list (Env * string)) (c : Client)
    (sc : ServerChannel K V K2 V2 R) :
  Forall (λ ab, frame_safe (client_proto ab.1) (client_proto ab.2))
    (visits (Client_receive password hmac_sha1_hex pickle_dumps pickle_loads
               py_int Mapper_Map Reducer_Reduce) frames c)
  ∧ Forall (λ ab, frame_safe (channel_proto ab.1) (channel_proto ab.2))
      (visits (ServerChannel_receive password hmac_sha1_hex pickle_dumps
                 pickle_loads py_int) frames sc)
  ∧ (∀ env message,
       auth (client_proto c) ≠ Some "Done" →
       Client_receive password hmac_sha1_hex pickle_dumps pickle_loads
         py_int Mapper_Map Reducer_Reduce env message c
       = (exec zoom client_proto set_client_proto
                 (collect_incoming_data message);
          exec (do cd <- decode_command
                           (String.concat ""
                              (buffer (client_proto c) ++ [message]));
                process_unauthed_command password hmac_sha1_hex pickle_dumps
                  client_proto set_client_proto Client_handle_close
                  (Client_post_auth_init pickle_dumps) env cd.1 (Arg cd.2));
          zoom client_proto set_client_proto (modify (set_buffer []))) c)
  ∧ (∀ env message,
       auth (channel_proto sc) ≠ Some "Done" →
       ServerChannel_receive password hmac_sha1_hex pickle_dumps pickle_loads
         py_int env message sc
       = (exec zoom channel_proto set_channel_proto
                 (collect_incoming_data message);
          exec (do cd <- decode_command
                           (String.concat ""
                              (buffer (channel_proto sc) ++ [message]));
                process_unauthed_command password hmac_sha1_hex pickle_dumps
                  channel_proto set_channel_proto ServerChannel_handle_close
                  (ServerChannel_post_auth_init pickle_dumps) env cd.1
                  (Arg cd.2));
          zoom channel_proto set_channel_proto (modify (set_buffer []))) sc).
Proof.
  split; [|split; [|split]].
  - apply (visits_Forall _ (λ a b, frame_safe (client_proto a)
                                     (client_proto b))).
    intros. apply Client_receive_safe.
  - apply (visits_Forall _ (λ a b, frame_safe (channel_proto a)
                                     (channel_proto b))).
    intros. apply ServerChannel_receive_safe.
  - intros env message Hauth.
    set (c1 := set_client_proto
                 (set_buffer (buffer (client_proto c) ++ [message])
                    (client_proto c)) c).
    change (Client_receive password hmac_sha1_hex pickle_dumps pickle_loads
              py_int Mapper_Map Reducer_Reduce env message c)
      with (Client_found_terminator password hmac_sha1_hex pickle_dumps
              pickle_loads py_int Mapper_Map Reducer_Reduce env c1).
    unfold Client_found_terminator.
    by rewrite found_terminator_unauthed.
  - intros env message Hauth.
    set (sc1 := set_channel_proto
                  (set_buffer (buffer (channel_proto sc) ++ [message])
                     (channel_proto sc)) sc).
    change (ServerChannel_receive password hmac_sha1_hex pickle_dumps
              pickle_loads py_int env message sc)
      with (ServerChannel_found_terminator password hmac_sha1_hex
              pickle_dumps pickle_loads py_int env sc1).
    unfold ServerChannel_found_terminator.
    by rewrite found_terminator_unauthed.
Qed.

End Frames.

(** ** The handshake on a channel of the master *)

Section Handshake.
Context {K V K2 V2 R : Type} `{Countable K, Countable K2}.
Variable password : string.
Variable hmac_sha1_hex : string → string → string.
Variable pickle_dumps : payload K V K2 V2 R → string.
Variable pickle_loads : string → option (payload K V K2 V2 R).
Variable py_int : string → option Z.

Lemma substring_0_length (s : string) :
  String.substring 0 (String.length s) s = s.
Proof. induction s as [|a s IH]; simpl; congruence. Qed.

Lemma decode_challenge {S} (s : string) :
  decode_command (S:=S) ("challenge:" +:+ s) = ret ("challenge", s).
Proof.
  unfold decode_command. simpl. by rewrite Nat.sub_0_r, substring_0_length.
Qed.

(** A [challenge] frame on a channel of the master that is not
    authenticated: the master answers with its proof and pushes the next
    task on the channel. *)
Lemma unauthed_challenge_gets_next_task env s
    (sc : ServerChannel K V K2 V2 R) command pl tm' :
  auth (channel_proto sc) ≠ Some "Done" →
  buffer (channel_proto sc) = [] →
  next_task (rnd env) (taskmanager sc) = (Ret (Some (command, pl)), tm') →
  ServerChannel_receive password hmac_sha1_hex pickle_dumps pickle_loads
    py_int env ("challenge:" +:+ s) sc
  = (Ret tt,
     {| channel_proto :=
          set_buffer []
            (set_trace
               (trace (channel_proto sc)
                ++ [Push (wire_frame pickle_dumps COMMAND.auth None
                            (Some (hmac_sha1_hex password s)));
                    Push (wire_frame pickle_dumps command pl None)])
               (channel_proto sc));
        taskmanager := tm' |}).
Proof.
  intros Hauth Hbuf Hnext.
  set (sc1 := set_channel_proto
                (set_buffer (buffer (channel_proto sc) ++ ["challenge:" +:+ s])
                   (channel_proto sc)) sc).
  change (ServerChannel_receive password hmac_sha1_hex pickle_dumps
            pickle_loads py_int env ("challenge:" +:+ s) sc)
    with (ServerChannel_found_terminator password hmac_sha1_hex pickle_dumps
            pickle_loads py_int env sc1).
  unfold ServerChannel_found_terminator.
  rewrite found_terminator_unauthed by done.
  assert (Hmsg : String.concat "" (buffer (channel_proto sc1))
                 = "challenge:" +:+ s).
  { unfold sc1. simpl. by rewrite Hbuf. }
  rewrite Hmsg, decode_challenge.
  set (sc2 := set_channel_proto
                (set_trace
                   (trace (channel_proto sc1)
                    ++ [Push (wire_frame pickle_dumps COMMAND.auth None
                                (Some (hmac_sha1_hex password s)))])
                   (channel_proto sc1)) sc1).
  assert (Hsend :
    zoom channel_proto set_channel_proto
      (send_command pickle_dumps COMMAND.auth None
         (Some (hmac_sha1_hex password s))) sc1 = (Ret tt, sc2)).
  { unfold zoom. by rewrite send_command_frame. }
  assert (Hstart :
    start_new_task pickle_dumps env sc2
    = (Ret tt,
       {| channel_proto :=
            set_trace (trace (channel_proto sc2)
                       ++ [Push (wire_frame pickle_dumps command pl None)])
                      (channel_proto sc2);
          taskmanager := tm' |})).
  { by apply start_new_task_run. }
  assert (Hresp :
    respond_to_challenge password hmac_sha1_hex pickle_dumps channel_proto
      set_channel_proto (ServerChannel_post_auth_init pickle_dumps) env
      "challenge" (Arg s) sc1
    = (Ret tt,
       {| channel_proto :=
            set_trace (trace (channel_proto sc2)
                       ++ [Push (wire_frame pickle_dumps command pl None)])
                      (channel_proto sc2);
          taskmanager := tm' |})).
  { unfold respond_to_challenge.
    rewrite (bind_run _ _ sc1 s sc1) by reflexivity.
    rewrite (bind_run _ _ sc1 tt sc2) by exact Hsend.
    exact Hstart. }
  rewrite (bind_run _ _ sc1 tt
             {| channel_proto :=
                  set_trace (trace (channel_proto sc2)
                             ++ [Push (wire_frame pickle_dumps command pl
                                         None)])
                            (channel_proto sc2);
                taskmanager := tm' |}).
  - unfold zoom, modify, sc2, sc1. simpl. by rewrite <- app_assoc.
  - rewrite (bind_run _ _ sc1 ("challenge", s) sc1) by reflexivity.
    unfold process_unauthed_command, try_except.
    match goal with
    | |- context [dispatch ?hs ?c0 ?d0 ?st] =>
        change (dispatch hs c0 d0 st)
          with (respond_to_challenge password hmac_sha1_hex pickle_dumps
                  channel_proto set_channel_proto
                  (ServerChannel_post_auth_init pickle_dumps) env c0 d0 st)
    end.
    simpl. by rewrite Hresp.
Qed.

End Handshake.

Section Handshake_evaluation.
Variable password : string.
Variable hmac_sha1_hex : string → string → string.
Variable pickle_dumps : payload string string string nat nat → string.
Variable pickle_loads : string → option (payload string string string nat nat).
Variable py_int : string → option Z.

(** C2 fails on the code: a peer that has proved nothing gets a task.
    Whatever the keyed hash, the password and the pickler are, a fresh
    channel of the master that receives [challenge:abc] as its first frame
    answers with its proof and then pushes the MAP task of the first key of
    the dataset; the channel is not closed and is still unauthenticated. *)
Theorem challenge_before_auth_gets_task :
  let sc0 : ServerChannel string string string nat nat :=
    {| channel_proto := ServerChannel_init pickle_dumps Demo.env0;
       taskmanager := TaskManager_init Demo.dataset {| listening := true |} |} in
  let r := ServerChannel_receive password hmac_sha1_hex pickle_dumps
             pickle_loads py_int Demo.env0 "challenge:abc" sc0 in
  value_of r = Ret tt
  ∧ trace (channel_proto (state_of r))
    = [Push (wire_frame pickle_dumps COMMAND.challenge None (Some "c0ffee"));
       Push (wire_frame pickle_dumps COMMAND.auth None
               (Some (hmac_sha1_hex password "abc")));
       Push (wire_frame pickle_dumps COMMAND.map
               (Some (MapData "a" "x y x")) None)]
  ∧ connected (channel_proto (state_of r)) = true
  ∧ auth (channel_proto (state_of r)) = Some "c0ffee"
  ∧ auth (channel_proto (state_of r)) ≠ Some "Done".
Proof.
  assert (Hinit : ServerChannel_init pickle_dumps Demo.env0
                  = set_trace
                      [Push (wire_frame pickle_dumps COMMAND.challenge None
                               (Some "c0ffee"))]
                      (set_auth (Some "c0ffee") Protocol_init)).
  { unfold ServerChannel_init, send_challenge, bind, modify, state_of.
    by rewrite send_command_frame. }
  rewrite Hinit. intros sc0 r.
  assert (Hnext : ∃ tm',
    next_task (rnd Demo.env0) (taskmanager sc0)
    = (Ret (Some (COMMAND.map, Some (MapData "a" "x y x"))), tm')).
  { eexists. vm_compute. reflexivity. }
  destruct Hnext as [tm' Hnext].
  assert (Hr : r = (Ret tt,
    {| channel_proto :=
         set_buffer []
           (set_trace
              (trace (channel_proto sc0)
               ++ [Push (wire_frame pickle_dumps COMMAND.auth None
                           (Some (hmac_sha1_hex password "abc")));
                   Push (wire_frame pickle_dumps COMMAND.map
                           (Some (MapData "a" "x y x")) None)])
              (channel_proto sc0));
       taskmanager := tm' |})).
  { unfold r.
    apply (unauthed_challenge_gets_next_task password hmac_sha1_hex
             pickle_dumps pickle_loads py_int Demo.env0 "abc" sc0);
      [|reflexivity|exact Hnext].
    change (Some "c0ffee" ≠ Some "Done"). discriminate. }
  rewrite Hr. split; [reflexivity|]. split; [reflexivity|].
  split; [reflexivity|]. split; [reflexivity|].
  change (Some "c0ffee" ≠ Some "Done"). discriminate.
Qed.

End Handshake_evaluation.

(** ** A whole run with the identity mapper and reducer *)

Section Identity_run.
Context {K V : Type} `{Countable K}.
Implicit Types (ds : gmap K V) (tm : TaskManager K V K V (list V)).
Implicit Types (s : System K V K V (list V)).

Lemma group_by_key_list (l : list (K * V)) :
  NoDup l.*1 →
  group_by_key l = (λ v, [v]) <$> (list_to_map l : gmap K V).
Proof.
  induction l as [|[k v] l IH]; intros Hnd; simpl.
  - by rewrite fmap_empty.
  - apply NoDup_cons in Hnd as [Hk Hnd]. rewrite IH by done.
    rewrite lookup_fmap, (not_elem_of_list_to_map_1 l k Hk). simpl.
    by rewrite fmap_insert.
Qed.

(** Grouping the pairs of a dataset by key gives every key the list of
    its one value. *)
Lemma group_dataset_grouped ds : group_dataset ds = grouped ds.
Proof.
  unfold group_dataset, grouped.
  rewrite group_by_key_list by apply NoDup_fst_map_to_list.
  by rewrite list_to_map_to_list.
Qed.

Lemma grouped_lookup ds k v : ds !! k = Some v → grouped ds !! k = Some [v].
Proof. intros Hk. unfold grouped. by rewrite lookup_fmap, Hk. Qed.

Lemma identity_worker_map (k : K) (v : V) :
  worker identity_Map identity_Reduce (MapData k v)
  = Ret (MapResult k {[k := [v]]}).
Proof.
  unfold worker, identity_Map, group_emissions. simpl.
  unfold group_step. simpl. rewrite lookup_empty. by rewrite insert_empty.
Qed.

Lemma identity_worker_reduce (k : K) (vs : list V) :
  worker identity_Map identity_Reduce (ReduceData k vs)
  = Ret (ReduceResult k vs).
Proof. reflexivity. Qed.

Lemma task_ok_mono ds tm tm' t :
  (phase_rank (state tm) ≤ phase_rank (state tm'))%nat →
  task_ok ds tm t → task_ok ds tm' t.
Proof.
  destruct t; simpl; try done; intros ? [? ?]; (split; [done|lia]).
Qed.

Lemma next_task_content_FINISHED rnd ds tm :
  state tm = FINISHED → content_inv ds tm →
  ∃ cmd data tm',
    next_task rnd tm = (Ret (Some (cmd, data)), tm')
    ∧ content_inv ds tm'
    ∧ (phase_rank (state tm) ≤ phase_rank (state tm'))%nat
    ∧ (∀ t, data = Some t → task_ok ds tm' t).
Proof.
  intros Hst Hinv. rewrite next_task_finished by done.
  eexists _, _, _. split; [done|].
  split; [|split; [by destruct tm|done]].
  revert Hinv. unfold content_inv, reduce_content.
  destruct tm; simpl in *. by subst.
Qed.

Lemma next_task_content_REDUCING rnd ds tm :
  state tm = REDUCING → content_inv ds tm →
  ∃ cmd data tm',
    next_task rnd tm = (Ret (Some (cmd, data)), tm')
    ∧ content_inv ds tm'
    ∧ (phase_rank (state tm) ≤ phase_rank (state tm'))%nat
    ∧ (∀ t, data = Some t → task_ok ds tm' t).
Proof.
  intros Hst Hinv. pose proof Hinv as [Hds Hc].
  rewrite Hst in Hc.
  destruct Hc as (Hmi & Hwm & Hmr & done & rest & w & res & Hsplit & Hri
                  & Hwr & Hres & Hw & Hcontent).
  pose proof (NoDup_fst_map_to_list (grouped ds)) as Hnd.
  rewrite Hsplit in Hnd.
  destruct rest as [|item rest].
  - destruct (decide (w = ∅)) as [->|Hne].
    + rewrite next_task_to_finished by done.
      destruct (next_task_content_FINISHED rnd ds (set_state FINISHED tm))
        as (cmd & data & tm' & -> & Hinv' & Hrk & Hdata).
      * by destruct tm.
      * unfold content_inv, reduce_content in *.
        destruct tm; simpl in *; subst. naive_solver.
      * eexists _, _, _. split; [done|]. split; [done|]. split; [|done].
        rewrite Hst. simpl in *. lia.
    + destruct (choice_in_set w rnd Hne) as (key & Hkey & Hin).
      assert (∃ vs, grouped ds !! key = Some vs) as [vs Hvs].
      { apply Hw in Hin. apply list_elem_of_fmap in Hin as ([k vs] & -> & Hin).
        exists vs. apply elem_of_map_to_list. rewrite Hsplit.
        apply elem_of_app. by left. }
      erewrite next_task_reissue_reduce by done.
      eexists _, _, _. split; [done|]. split; [done|]. split; [done|].
      intros t [= <-]. simpl. rewrite Hst. simpl. split; [done|lia].
  - rewrite (next_task_fresh_reduce rnd tm item rest w) by done.
    eexists _, _, _. split; [done|].
    assert (Hitem : grouped ds !! item.1 = Some item.2).
    { apply elem_of_map_to_list. rewrite Hsplit, <- surjective_pairing.
      apply elem_of_app. right. by left. }
    assert (Hfresh : item.1 ∉ done.*1).
    { rewrite fmap_app in Hnd. apply NoDup_app in Hnd as (_ & Hdisj & _).
      intros Hin. apply (Hdisj _ Hin). simpl. by left. }
    split; [|split].
    + unfold content_inv, reduce_content.
      destruct tm; simpl in *; subst. split; [done|].
      split; [done|]. split; [done|]. split; [done|].
      exists (done ++ [item]), rest, ({[item.1]} ∪ w), res.
      rewrite <- app_assoc. split; [done|]. split; [done|].
      split; [done|]. split; [done|]. split.
      * intros k Hk. rewrite fmap_app. apply elem_of_app. simpl.
        apply elem_of_union in Hk as [->%elem_of_singleton|Hk].
        -- right. by left.
        -- left. by apply Hw.
      * intros k. rewrite Hcontent, fmap_app. simpl.
        destruct (decide (k = item.1)) as [->|Hk].
        -- rewrite decide_False by naive_solver.
           rewrite decide_False; [done|]. set_solver.
        -- destruct (decide (k ∈ done.*1 ∧ k ∉ w)) as [[? ?]|Hn].
           ++ rewrite decide_True; [done|]. split; [|set_solver].
              apply elem_of_app. by left.
           ++ rewrite decide_False; [done|]. intros [Hk1 Hk2]. apply Hn.
              split; [|set_solver].
              apply elem_of_app in Hk1 as [?|Hk1]; [done|].
              apply list_elem_of_singleton in Hk1. done.
    + by destruct tm.
    + intros t [= <-]. simpl. split; [done|].
      destruct tm; simpl in *; subst. simpl. lia.
Qed.

Lemma next_task_content_MAPPING rnd ds tm :
  state tm = MAPPING → content_inv ds tm →
  ∃ cmd data tm',
    next_task rnd tm = (Ret (Some (cmd, data)), tm')
    ∧ content_inv ds tm'
    ∧ (phase_rank (state tm) ≤ phase_rank (state tm'))%nat
    ∧ (∀ t, data = Some t → task_ok ds tm' t).
Proof.
  intros Hst Hinv. pose proof Hinv as [Hds Hc].
  rewrite Hst in Hc.
  destruct Hc as (done & rest & w & mr & Hsplit & Hmi & Hwm & Hmr & Hw
                  & Hcontent).
  pose proof (NoDup_fst_map_to_list ds) as Hnd.
  fold (iter_keys ds) in Hnd. rewrite Hsplit in Hnd.
  assert (Hkeys : ∀ k, k ∈ done ++ rest → ∃ v, ds !! k = Some v).
  { intros k Hk. rewrite <- Hsplit in Hk. unfold iter_keys in Hk.
    apply list_elem_of_fmap in Hk as ([k' v] & -> & Hin).
    exists v. by apply elem_of_map_to_list. }
  destruct rest as [|k rest].
  - destruct (decide (w = ∅)) as [->|Hne].
    + rewrite (next_task_to_reducing rnd tm mr) by done.
      match goal with |- context [next_task rnd ?t] => set (tm1 := t) end.
      assert (Hmr_all : mr = grouped ds).
      { apply map_eq. intros k. rewrite Hcontent.
        destruct (decide (k ∈ done ∧ k ∉ ∅)) as [_|Hn]; [done|].
        symmetry. apply not_elem_of_dom. intros Hdom.
        apply Hn. split; [|set_solver].
        unfold grouped in Hdom. rewrite dom_fmap in Hdom.
        apply elem_of_dom in Hdom as [v Hv].
        rewrite app_nil_r in Hsplit. rewrite <- Hsplit. unfold iter_keys.
        apply list_elem_of_fmap. exists (k, v). split; [done|].
        by apply elem_of_map_to_list. }
      destruct (next_task_content_REDUCING rnd ds tm1)
        as (cmd & data & tm' & -> & Hinv' & Hrk & Hdata).
      * by destruct tm.
      * unfold tm1, content_inv, reduce_content.
        destruct tm; simpl in *; subst. split; [done|].
        split; [done|]. split; [done|]. split; [done|].
        exists [], (map_to_list (grouped ds)), ∅, ∅.
        repeat split; try done.
        all: intros k; rewrite lookup_empty; rewrite decide_False; [done|].
        all: intros [Hk _]; by apply elem_of_nil in Hk.
      * eexists _, _, _. split; [done|]. split; [done|]. split; [|done].
        rewrite Hst. simpl in *. lia.
    + destruct (choice_in_set w rnd Hne) as (key & Hkey & Hin).
      destruct (Hkeys key) as [v Hv].
      { apply elem_of_app. left. by apply Hw. }
      erewrite next_task_reissue_map; [|done..|by rewrite Hds].
      eexists _, _, _. split; [done|]. split; [done|]. split; [done|].
      intros t [= <-]. simpl. rewrite Hst. simpl. split; [done|lia].
  - destruct (Hkeys k) as [v Hv].
    { apply elem_of_app. right. by left. }
    rewrite (next_task_fresh_map rnd tm k rest w v); [|done..|by rewrite Hds].
    eexists _, _, _. split; [done|].
    assert (Hfresh : k ∉ done).
    { apply NoDup_app in Hnd as (_ & Hdisj & _).
      intros Hin. apply (Hdisj _ Hin). by left. }
    split; [|split].
    + unfold content_inv, map_content.
      destruct tm; simpl in *; subst. split; [done|].
      exists (done ++ [k]), rest, ({[k]} ∪ w), mr.
      rewrite <- app_assoc. split; [done|]. split; [done|].
      split; [done|]. split; [done|]. split.
      * intros k' Hk'. apply elem_of_app.
        apply elem_of_union in Hk' as [->%elem_of_singleton|Hk'].
        -- right. by left.
        -- left. by apply Hw.
      * intros k'. rewrite Hcontent.
        destruct (decide (k' = k)) as [->|Hk'].
        -- rewrite decide_False by naive_solver.
           rewrite decide_False; [done|]. set_solver.
        -- destruct (decide (k' ∈ done ∧ k' ∉ w)) as [[? ?]|Hn].
           ++ rewrite decide_True; [done|]. split; [|set_solver].
              apply elem_of_app. by left.
           ++ rewrite decide_False; [done|]. intros [Hk1 Hk2]. apply Hn.
              split; [|set_solver].
              apply elem_of_app in Hk1 as [?|Hk1]; [done|].
              apply list_elem_of_singleton in Hk1. done.
    + by destruct tm.
    + intros t [= <-]. simpl. split; [done|].
      destruct tm; simpl in *; subst. simpl. lia.
Qed.

Lemma next_task_content rnd ds tm :
  content_inv ds tm →
  ∃ cmd data tm',
    next_task rnd tm = (Ret (Some (cmd, data)), tm')
    ∧ content_inv ds tm'
    ∧ (phase_rank (state tm) ≤ phase_rank (state tm'))%nat
    ∧ (∀ t, data = Some t → task_ok ds tm' t).
Proof.
  intros Hinv. destruct (state tm) eqn:Hst.
  - rewrite next_task_start by done.
    match goal with |- context [next_task rnd ?t] => set (tm1 := t) end.
    destruct (next_task_content_MAPPING rnd ds tm1)
      as (cmd & data & tm' & -> & Hinv' & Hrk & Hdata).
    + by destruct tm.
    + destruct Hinv as [Hds _]. unfold tm1, content_inv, map_content.
      destruct tm; simpl in *; subst. split; [done|].
      exists [], (iter_keys ds), ∅, ∅. repeat split; try done.
      all: intros k; rewrite lookup_empty; rewrite decide_False; [done|].
      all: intros [Hk _]; by apply elem_of_nil in Hk.
    + eexists _, _, _. split; [done|]. split; [done|]. split; [|done].
      simpl. lia.
  - rewrite <- Hst. by apply next_task_content_MAPPING.
  - rewrite <- Hst. by apply next_task_content_REDUCING.
  - rewrite <- Hst. by apply next_task_content_FINISHED.
Qed.

Lemma map_done_content ds tm k v :
  content_inv ds tm → ds !! k = Some v →
  (1 ≤ phase_rank (state tm))%nat →
  ∃ tm', map_done (k, {[k := [v]]}) tm = (Ret tt, tm')
         ∧ content_inv ds tm' ∧ state tm' = state tm.
Proof.
  intros [Hds Hc] Hv Hrk. destruct (state tm) eqn:Hst; simpl in Hrk;
    [lia| | |].
  - destruct Hc as (done & rest & w & mr & Hsplit & Hmi & Hwm & Hmr & Hw
                    & Hcontent).
    destruct (decide (k ∈ w)) as [Hin|Hnin].
    + destruct (map_done_accepted tm w mr (k, {[k := [v]]}) Hwm Hmr Hin)
        as (mr' & -> & Hmr').
      eexists. split; [done|]. split; [|by destruct tm].
      unfold content_inv, map_content.
      destruct tm; simpl in *; subst. split; [done|].
      exists done, rest, (w ∖ {[k]}), mr'. repeat split; try done.
      * intros k' Hk'. apply Hw. set_solver.
      * intros k'. rewrite Hmr'.
        destruct (decide (k' = k)) as [->|Hk'].
        -- rewrite lookup_singleton_eq, Hcontent.
           rewrite decide_False by naive_solver. simpl.
           rewrite decide_True by (split; [by apply Hw|set_solver]).
           symmetry. by apply grouped_lookup.
        -- rewrite lookup_singleton_ne by done. rewrite Hcontent.
           destruct (decide (k' ∈ done ∧ k' ∉ w)) as [[? ?]|Hn].
           ++ rewrite decide_True; [done|]. split; [done|set_solver].
           ++ rewrite decide_False; [done|]. intros [? ?]. apply Hn.
              split; [done|set_solver].
    + rewrite (map_done_stale_is_noop_aux tm w (k, {[k := [v]]}) Hwm Hnin).
      exists tm. split; [done|]. split; [|done].
      split; [done|]. rewrite Hst. by exists done, rest, w, mr.
  - destruct Hc as (Hmi & Hwm & Hrest).
    rewrite (map_done_stale_is_noop_aux tm ∅ (k, {[k := [v]]}) Hwm)
      by set_solver.
    exists tm. split; [done|]. split; [|done].
    split; [done|]. by rewrite Hst.
  - destruct Hc as [(Hmi & Hwm & Hrest) Hfin].
    rewrite (map_done_stale_is_noop_aux tm ∅ (k, {[k := [v]]}) Hwm)
      by set_solver.
    exists tm. split; [done|]. split; [|done].
    split; [done|]. by rewrite Hst.
Qed.

Lemma reduce_done_stale tm (w : gset K) (data : K * list V) :
  working_reduces tm = Some w → data.1 ∉ w →
  reduce_done data tm = (Ret tt, tm).
Proof.
  intros Hw Hnin. unfold reduce_done, bind, attr. rewrite Hw.
  by rewrite decide_False.
Qed.

Lemma reduce_done_accepted tm (w : gset K) res (data : K * list V) :
  working_reduces tm = Some w → results tm = Some res → data.1 ∈ w →
  reduce_done data tm
  = (Ret tt, set_working_reduces (w ∖ {[data.1]})
               (set_results (<[data.1 := data.2]> res) tm)).
Proof.
  intros Hw Hres Hin. unfold reduce_done, bind, attr, modify. rewrite Hw.
  rewrite decide_True by done. rewrite Hres.
  destruct tm; simpl in *. by rewrite Hw.
Qed.

Lemma reduce_done_content ds tm k vs :
  content_inv ds tm → grouped ds !! k = Some vs →
  (2 ≤ phase_rank (state tm))%nat →
  ∃ tm', reduce_done (k, vs) tm = (Ret tt, tm')
         ∧ content_inv ds tm' ∧ state tm' = state tm.
Proof.
  intros [Hds Hc] Hvs Hrk. destruct (state tm) eqn:Hst; simpl in Hrk;
    [lia|lia| |].
  - destruct Hc as (Hmi & Hwm & Hmr & done & rest & w & res & Hsplit & Hri
                    & Hwr & Hres & Hw & Hcontent).
    destruct (decide (k ∈ w)) as [Hin|Hnin].
    + rewrite (reduce_done_accepted tm w res (k, vs)) by done.
      eexists. split; [done|]. split; [|by destruct tm].
      unfold content_inv, reduce_content.
      destruct tm; simpl in *; subst. split; [done|].
      split; [done|]. split; [done|]. split; [done|].
      exists done, rest, (w ∖ {[k]}), (<[k:=vs]> res).
      repeat split; try done.
      * intros k' Hk'. apply Hw. set_solver.
      * intros k'. destruct (decide (k' = k)) as [->|Hk'].
        -- rewrite lookup_insert_eq.
           rewrite decide_True by (split; [by apply Hw|set_solver]). done.
        -- rewrite lookup_insert_ne by done. rewrite Hcontent.
           destruct (decide (k' ∈ done.*1 ∧ k' ∉ w)) as [[? ?]|Hn].
           ++ rewrite decide_True; [done|]. split; [done|set_solver].
           ++ rewrite decide_False; [done|]. intros [? ?]. apply Hn.
              split; [done|set_solver].
    + rewrite (reduce_done_stale tm w (k, vs)) by done.
      exists tm. split; [done|]. split; [|done].
      split; [done|]. rewrite Hst.
      split; [done|]. split; [done|]. split; [done|].
      by exists done, rest, w, res.
  - destruct Hc as [Hc [Hri Hwr]].
    rewrite (reduce_done_stale tm ∅ (k, vs)) by (done || set_solver).
    exists tm. split; [done|]. split; [|done].
    split; [done|]. by rewrite Hst.
Qed.

Lemma sys_start_new_task_inv ds slot rnd s :
  sys_inv ds s →
  ∃ cmd data tm',
    next_task rnd (sys_taskmanager s) = (Ret (Some (cmd, data)), tm')
    ∧ sys_start_new_task slot rnd s
      = (Ret tt,
         {| sys_taskmanager := tm';
            workers := match slot with
                       | Some i => <[i := data]> (workers s)
                       | None => workers s ++ [data]
                       end |})
    ∧ sys_inv ds
        {| sys_taskmanager := tm';
           workers := match slot with
                      | Some i => <[i := data]> (workers s)
                      | None => workers s ++ [data]
                      end |}.
Proof.
  intros [Hc Hworkers].
  destruct (next_task_content rnd ds _ Hc)
    as (cmd & data & tm' & Hnext & Hc' & Hrk & Hdata).
  exists cmd, data, tm'. split; [done|]. split.
  - unfold sys_start_new_task.
    rewrite (bind_run _ _ s (Some (cmd, data)) (set_sys_taskmanager tm' s))
      by (unfold zoom; by rewrite Hnext).
    by destruct s.
  - split; [done|]. simpl.
    assert (Hold : Forall (λ w, ∀ t, w = Some t → task_ok ds tm' t)
                     (workers s)).
    { eapply Forall_impl; [done|]. simpl. intros w Hw t Ht.
      eapply task_ok_mono; [done|]. by apply Hw. }
    destruct slot as [i|].
    + by apply Forall_insert.
    + apply Forall_app. split; [done|]. by constructor.
Qed.

Lemma sys_step_inv ds ev s :
  sys_inv ds s →
  ∃ s', sys_step identity_Map identity_Reduce ev s = (Ret tt, s')
        ∧ sys_inv ds s'.
Proof.
  intros Hinv. destruct ev as [rnd|i rnd]; simpl.
  - destruct (sys_start_new_task_inv ds None rnd s Hinv)
      as (cmd & data & tm' & _ & -> & Hinv'). eauto.
  - unfold bind at 1, get at 1.
    destruct (workers s !! i) as [[task|]|] eqn:Hi; [|by eexists..].
    pose proof Hinv as [Hc Hworkers].
    pose proof (Forall_lookup_1 _ _ _ _ Hworkers Hi task eq_refl) as Htask.
    destruct task as [k v|k vs| |]; simpl in Htask; try done.
    + destruct Htask as [Hv Hrk]. rewrite identity_worker_map.
      destruct (map_done_content ds _ k v Hc Hv Hrk)
        as (tm1 & Hdone & Hc1 & Hst1).
      rewrite (bind_run _ _ s tt (set_sys_taskmanager tm1 s))
        by (unfold zoom; by rewrite Hdone).
      destruct (sys_start_new_task_inv ds (Some i) rnd
                  (set_sys_taskmanager tm1 s))
        as (cmd & data & tm' & _ & -> & Hinv'); [|eauto].
      split; [done|]. simpl. eapply Forall_impl; [done|]. simpl.
      intros w Hw t Ht. eapply task_ok_mono; [|by apply Hw].
      by rewrite Hst1.
    + destruct Htask as [Hvs Hrk]. rewrite identity_worker_reduce.
      destruct (reduce_done_content ds _ k vs Hc Hvs Hrk)
        as (tm1 & Hdone & Hc1 & Hst1).
      rewrite (bind_run _ _ s tt (set_sys_taskmanager tm1 s))
        by (unfold zoom; by rewrite Hdone).
      destruct (sys_start_new_task_inv ds (Some i) rnd
                  (set_sys_taskmanager tm1 s))
        as (cmd & data & tm' & _ & -> & Hinv'); [|eauto].
      split; [done|]. simpl. eapply Forall_impl; [done|]. simpl.
      intros w Hw t Ht. eapply task_ok_mono; [|by apply Hw].
      by rewrite Hst1.
Qed.

Lemma run_inv ds evs : ∀ s,
  sys_inv ds s →
  ∃ s', run identity_Map identity_Reduce evs s = (Ret tt, s')
        ∧ sys_inv ds s'.
Proof.
  induction evs as [|ev evs IH]; intros s Hinv; simpl.
  - by exists s.
  - destruct (sys_step_inv ds ev s Hinv) as (s1 & Hstep & Hinv1).
    rewrite (bind_run _ _ s tt s1) by done. by apply IH.
Qed.

Lemma sys_inv_init ds : sys_inv ds (System_init ds).
Proof. split; [done|]. constructor. Qed.

(** At the end the final results are the grouped dataset. *)
Lemma finished_results ds tm :
  content_inv ds tm → state tm = FINISHED →
  results tm = Some (grouped ds).
Proof.
  intros [Hds Hc] Hst. rewrite Hst in Hc.
  destruct Hc as [(Hmi & Hwm & Hmr & done & rest & w & res & Hsplit & Hri
                   & Hwr & Hres & Hw & Hcontent) [Hri' Hwr']].
  rewrite Hres. f_equal. apply map_eq. intros k. rewrite Hcontent.
  assert (rest = []) as -> by congruence.
  assert (w = ∅) as -> by congruence.
  rewrite app_nil_r in Hsplit.
  destruct (decide (k ∈ done.*1 ∧ k ∉ ∅)) as [_|Hn]; [done|].
  symmetry. apply eq_None_not_Some. intros [vs Hvs]. apply Hn.
  split; [|set_solver]. rewrite <- Hsplit.
  apply list_elem_of_fmap. exists (k, vs). split; [done|].
  by apply elem_of_map_to_list.
Qed.

(** *** The run of one worker *)

Lemma map_content_complete ds tm mr :
  content_inv ds tm → state tm = MAPPING →
  map_iter tm = Some [] → working_maps tm = Some ∅ →
  map_results tm = Some mr → mr = grouped ds.
Proof.
  intros [Hds Hc] Hst Hmi Hwm Hmr. rewrite Hst in Hc.
  destruct Hc as (done & rest & w & mr0 & Hsplit & Hmi' & Hwm' & Hmr' & Hw
                  & Hcontent).
  assert (rest = []) as -> by congruence.
  assert (w = ∅) as -> by congruence.
  assert (mr0 = mr) as -> by congruence.
  rewrite app_nil_r in Hsplit.
  apply map_eq. intros k. rewrite Hcontent.
  destruct (decide (k ∈ done ∧ k ∉ ∅)) as [_|Hn]; [done|].
  symmetry. apply eq_None_not_Some. intros [vs Hvs]. apply Hn.
  split; [|set_solver]. rewrite <- Hsplit. unfold iter_keys.
  unfold grouped in Hvs. rewrite lookup_fmap in Hvs.
  destruct (ds !! k) as [v|] eqn:Hv; [|done].
  apply list_elem_of_fmap. exists (k, v). split; [done|].
  by apply elem_of_map_to_list.
Qed.

Lemma size_iter_keys ds : length (iter_keys ds) = size ds.
Proof. unfold iter_keys. by rewrite length_fmap, length_map_to_list. Qed.

Lemma size_grouped_list ds : length (map_to_list (grouped ds)) = size ds.
Proof. unfold grouped. by rewrite length_map_to_list, map_size_fmap. Qed.

(** Entering the reduce phase with one worker. *)
Lemma one_worker_enters_reduce ds rnd tm cmd data tm' :
  content_inv ds tm → state tm = MAPPING →
  map_iter tm = Some [] → working_maps tm = Some ∅ →
  next_task rnd tm = (Ret (Some (cmd, data)), tm') →
  sys_inv ds {| sys_taskmanager := tm'; workers := [data] |} →
  one_worker_state ds (size ds)
    {| sys_taskmanager := tm'; workers := [data] |}.
Proof.
  intros Hc Hst Hmi Hwm Hnext Hinv.
  pose proof Hc as [_ Hc']. rewrite Hst in Hc'.
  destruct Hc' as (_ & _ & _ & mr & _ & _ & _ & Hmr & _).
  pose proof (map_content_complete ds tm mr Hc Hst Hmi Hwm Hmr) as ->.
  rewrite (next_task_to_reducing rnd tm (grouped ds)) in Hnext by done.
  pose proof (size_grouped_list ds) as Hsize.
  destruct (map_to_list (grouped ds)) as [|item rest] eqn:Hlist.
  - rewrite next_task_to_finished in Hnext by (by destruct tm).
    rewrite next_task_finished in Hnext by (by destruct tm).
    injection Hnext as <- <- <-.
    split; [done|]. right. right. simpl in *. by destruct tm.
  - rewrite (next_task_fresh_reduce rnd _ item rest ∅) in Hnext
      by (by destruct tm).
    injection Hnext as <- <- <-.
    split; [done|]. right. left. split; [by destruct tm|].
    exists item.1, item.2, rest. simpl in *.
    split; [done|]. split; [|split; [by destruct tm|lia]].
    destruct tm; simpl. by rewrite union_empty_r_L.
Qed.

Lemma one_worker_join ds :
  ∃ s', sys_step identity_Map identity_Reduce (Join 0) (System_init ds)
        = (Ret tt, s')
        ∧ one_worker_state ds (2 * size ds) s'.
Proof.
  simpl.
  destruct (sys_start_new_task_inv ds None 0 (System_init ds)
              (sys_inv_init ds))
    as (cmd & data & tm' & Hnext & -> & Hinv').
  eexists. split; [done|]. simpl in *.
  rewrite next_task_start in Hnext by done. simpl in Hnext.
  pose proof (size_iter_keys ds) as Hsize.
  match type of Hnext with next_task 0 ?t = _ => set (tm1 := t) in * end.
  assert (Hc1 : content_inv ds tm1).
  { split; [done|]. simpl. exists [], (iter_keys ds), ∅, ∅.
    repeat split; try done.
    all: intros k; rewrite lookup_empty; rewrite decide_False; [done|].
    all: intros [Hk _]; by apply elem_of_nil in Hk. }
  destruct (iter_keys ds) as [|k rest] eqn:Hkeys.
  - simpl in Hsize. replace (size ds + (size ds + 0)) with (size ds) by lia.
    by eapply (one_worker_enters_reduce ds 0 tm1).
  - assert (∃ v, ds !! k = Some v) as [v Hv].
    { assert (Hin : k ∈ iter_keys ds) by (rewrite Hkeys; by left).
      unfold iter_keys in Hin.
      apply list_elem_of_fmap in Hin as ([k' v] & -> & Hin).
      exists v. by apply elem_of_map_to_list. }
    rewrite (next_task_fresh_map 0 tm1 k rest ∅ v) in Hnext by done.
    injection Hnext as <- <- <-.
    split; [done|]. left. split; [done|].
    exists k, v, rest. simpl in *. rewrite union_empty_r_L.
    repeat split; try done. lia.
Qed.

Lemma sys_step_finish_map s i rnd (k : K) (v : V) :
  workers s !! i = Some (Some (MapData k v)) →
  sys_step identity_Map identity_Reduce (Finish i rnd) s
  = (exec zoom sys_taskmanager set_sys_taskmanager
            (map_done (k, {[k := [v]]}));
     sys_start_new_task (Some i) rnd) s.
Proof.
  intros Hi. simpl. unfold bind at 1, get at 1. rewrite Hi.
  by rewrite identity_worker_map.
Qed.

Lemma sys_step_finish_reduce s i rnd (k : K) (vs : list V) :
  workers s !! i = Some (Some (ReduceData k vs)) →
  sys_step identity_Map identity_Reduce (Finish i rnd) s
  = (exec zoom sys_taskmanager set_sys_taskmanager (reduce_done (k, vs));
     sys_start_new_task (Some i) rnd) s.
Proof.
  intros Hi. simpl. unfold bind at 1, get at 1. by rewrite Hi.
Qed.

Lemma one_worker_step ds n s :
  one_worker_state ds (S n) s →
  ∃ s', sys_step identity_Map identity_Reduce (Finish 0 0) s = (Ret tt, s')
        ∧ one_worker_state ds n s'.
Proof.
  intros [Hinv [(Hst & k & v & rest & Hws & Hwm & Hmi & Hn)
               |[(Hst & k & vs & rest & Hws & Hwr & Hri & Hn)
                |(_ & Hn & _)]]]; [| |lia].
  - (* the worker reports a map task *)
    pose proof Hinv as [Hc Hworkers].
    assert (Htask : task_ok ds (sys_taskmanager s) (MapData k v)).
    { rewrite Hws in Hworkers. by eapply (Forall_inv Hworkers). }
    destruct Htask as [Hv Hrk].
    destruct (map_done_content ds _ k v Hc Hv Hrk)
      as (tm1 & Hdone & Hc1 & Hst1).
    pose proof Hc as [_ Hc']. rewrite Hst in Hc'.
    destruct Hc' as (done & rest0 & w & mr & _ & _ & Hwm' & Hmr & _).
    destruct (map_done_accepted (sys_taskmanager s) {[k]} mr
                (k, {[k := [v]]}) Hwm Hmr)
      as (mr' & Hdone' & _); [set_solver|].
    rewrite Hdone in Hdone'. injection Hdone' as Htm1.
    simpl in Htm1. rewrite difference_diag_L in Htm1.
    rewrite (sys_step_finish_map s 0 0 k v) by (by rewrite Hws).
    rewrite (bind_run _ _ s tt (set_sys_taskmanager tm1 s))
      by (unfold zoom; by rewrite Hdone).
    destruct (sys_start_new_task_inv ds (Some 0) 0
                (set_sys_taskmanager tm1 s))
      as (cmd & data & tm' & Hnext & -> & Hinv').
    { split; [done|]. simpl. eapply Forall_impl; [done|]. simpl.
      intros w0 Hw0 t Ht. eapply task_ok_mono; [|by apply Hw0].
      by rewrite Hst1. }
    eexists. split; [done|]. simpl in *. rewrite Hws in *. simpl in *.
    assert (Hmi1 : map_iter tm1 = Some rest).
    { rewrite Htm1. by destruct (sys_taskmanager s). }
    assert (Hwm1 : working_maps tm1 = Some ∅) by (by rewrite Htm1).
    assert (Hst1' : state tm1 = MAPPING) by congruence.
    destruct rest as [|k' rest'].
    + replace n with (size ds) by (simpl in Hn; lia).
      by eapply (one_worker_enters_reduce ds 0 tm1).
    + assert (∃ v', ds !! k' = Some v') as [v' Hv'].
      { destruct Hc1 as [_ Hc1]. rewrite Hst1' in Hc1.
        destruct Hc1 as (done1 & rest1 & w1 & mr1 & Hsplit & Hmi1' & _).
        assert (Hin : k' ∈ iter_keys ds).
        { rewrite Hsplit. apply elem_of_app. right.
          assert (rest1 = k' :: rest') as -> by congruence. by left. }
        unfold iter_keys in Hin.
        apply list_elem_of_fmap in Hin as ([k0 v0] & -> & Hin).
        exists v0. by apply elem_of_map_to_list. }
      rewrite (next_task_fresh_map 0 tm1 k' rest' ∅ v') in Hnext;
        [|done..|by destruct Hc1 as [-> _]].
      injection Hnext as <- <- <-.
      split; [done|]. left. split; [by destruct tm1|].
      exists k', v', rest'. simpl in *.
      split; [done|]. split; [|split; [by destruct tm1|lia]].
      destruct tm1; simpl. by rewrite union_empty_r_L.
  - (* the worker reports a reduce task *)
    pose proof Hinv as [Hc Hworkers].
    assert (Htask : task_ok ds (sys_taskmanager s) (ReduceData k vs)).
    { rewrite Hws in Hworkers. by eapply (Forall_inv Hworkers). }
    destruct Htask as [Hvs Hrk].
    destruct (reduce_done_content ds _ k vs Hc Hvs Hrk)
      as (tm1 & Hdone & Hc1 & Hst1).
    pose proof Hc as [_ Hc']. rewrite Hst in Hc'.
    destruct Hc' as (_ & _ & _ & done & rest0 & w & res & _ & _ & _ & Hres
                     & _).
    rewrite (reduce_done_accepted (sys_taskmanager s) {[k]} res (k, vs))
      in Hdone by (done || set_solver).
    injection Hdone as Htm1. simpl in Htm1.
    rewrite difference_diag_L in Htm1.
    rewrite (sys_step_finish_reduce s 0 0 k vs) by (by rewrite Hws).
    rewrite (bind_run _ _ s tt (set_sys_taskmanager tm1 s)).
    2:{ unfold zoom.
        rewrite (reduce_done_accepted (sys_taskmanager s) {[k]} res (k, vs))
          by (done || set_solver).
        simpl. rewrite difference_diag_L. by rewrite Htm1. }
    destruct (sys_start_new_task_inv ds (Some 0) 0
                (set_sys_taskmanager tm1 s))
      as (cmd & data & tm' & Hnext & -> & Hinv').
    { split; [done|]. simpl. eapply Forall_impl; [done|]. simpl.
      intros w0 Hw0 t Ht. eapply task_ok_mono; [|by apply Hw0].
      by rewrite Hst1. }
    eexists. split; [done|]. simpl in *. rewrite Hws in *. simpl in *.
    assert (Hri1 : reduce_iter tm1 = Some rest).
    { rewrite <- Htm1. by destruct (sys_taskmanager s). }
    assert (Hwr1 : working_reduces tm1 = Some ∅) by (by rewrite <- Htm1).
    assert (Hst1' : state tm1 = REDUCING) by congruence.
    destruct rest as [|item rest'].
    + rewrite next_task_to_finished in Hnext by done.
      rewrite next_task_finished in Hnext by (by destruct tm1).
      injection Hnext as <- <- <-.
      split; [done|]. right. right. simpl in *.
      split; [by destruct tm1|]. split; [lia|done].
    + rewrite (next_task_fresh_reduce 0 tm1 item rest' ∅) in Hnext by done.
      injection Hnext as <- <- <-.
      split; [done|]. right. left. split; [by destruct tm1|].
      exists item.1, item.2, rest'. simpl in *.
      split; [done|]. split; [|split; [by destruct tm1|lia]].
      destruct tm1; simpl. by rewrite union_empty_r_L.
Qed.

Lemma one_worker_run ds n : ∀ s,
  one_worker_state ds n s →
  ∃ s', run identity_Map identity_Reduce (replicate n (Finish 0 0)) s
        = (Ret tt, s')
        ∧ one_worker_state ds 0 s'.
Proof.
  induction n as [|n IH]; intros s Hs; simpl.
  - by exists s.
  - destruct (one_worker_step ds n s Hs) as (s1 & Hstep & Hs1).
    change (sys_step identity_Map identity_Reduce (Finish 0 0) s
            = (Ret tt, s1)) in Hstep.
    rewrite (bind_run _ _ s tt s1) by done. by apply IH.
Qed.


End Identity_run.

(** ** Further properties of the task manager *)

Section Scheduling_more.
Context {K V K2 V2 R : Type} `{Countable K, Countable K2}.
Implicit Types (tm : TaskManager K V K2 V2 R).
Implicit Types (calls : list (call K K2 V2 R)).

Lemma next_task_MAPPING_reply rnd tm c d tm' :
  state tm = MAPPING →
  next_task_MAPPING rnd tm = (Ret (Some (c, d)), tm') →
  c = COMMAND.map
  ∧ ∃ k v w, d = Some (MapData k v) ∧ datasource tm !! k = Some v
             ∧ working_maps tm' = Some w ∧ k ∈ w.
Proof.
  destruct tm as [ds srv st mi wm mr ri wr res]; simpl; intros ->.
  unfold next_task_MAPPING.
  cbv [bind get modify ret raise attr getitem random_choice]; simpl.
  destruct mi as [[|k rest]|]; simpl; [| |done].
  - destruct wm as [w|]; simpl; [|done].
    destruct (decide (0 < size w)) as [Hsz|Hsz].
    + destruct (elements w !! _) as [key|] eqn:Hkey; simpl; [|done].
      destruct (ds !! key) as [v|] eqn:Hv; simpl; [|done].
      intros [= <- <- <-]. split; [done|]. exists key, v, w.
      repeat split; try done.
      apply elem_of_elements. by eapply list_elem_of_lookup_2.
    + destruct mr; simpl; done.
  - destruct wm as [w|]; simpl; [|done].
    destruct (ds !! k) as [v|] eqn:Hv; simpl; [|done].
    intros [= <- <- <-]. split; [done|]. exists k, v, ({[k]} ∪ w).
    repeat split; try done. set_solver.
Qed.

Lemma next_task_REDUCING_reply rnd tm c d tm' :
  state tm = REDUCING →
  next_task_REDUCING rnd tm = (Ret (Some (c, d)), tm') →
  c = COMMAND.reduce
  ∧ ∃ k vs w, d = Some (ReduceData k vs)
              ∧ working_reduces tm' = Some w ∧ k ∈ w.
Proof.
  destruct tm as [ds srv st mi wm mr ri wr res]; simpl; intros ->.
  unfold next_task_REDUCING.
  cbv [bind get modify ret raise attr getitem random_choice]; simpl.
  destruct ri as [[|item rest]|]; simpl; [| |done].
  - destruct wr as [w|]; simpl; [|done].
    destruct (decide (0 < size w)) as [Hsz|Hsz]; [|done].
    destruct (elements w !! _) as [key|] eqn:Hkey; simpl; [|done].
    destruct mr as [mr|]; simpl; [|done].
    destruct (mr !! key) as [vs|] eqn:Hvs; simpl; [|done].
    intros [= <- <- <-]. split; [done|]. exists key, vs, w.
    repeat split; try done.
    apply elem_of_elements. by eapply list_elem_of_lookup_2.
  - destruct wr as [w|]; simpl; [|done].
    intros [= <- <- <-]. split; [done|].
    exists item.1, item.2, ({[item.1]} ∪ w).
    repeat split; try done. set_solver.
Qed.

Lemma next_task_MAPPING_datasource rnd tm :
  datasource (state_of (next_task_MAPPING rnd tm)) = datasource tm.
Proof.
  destruct tm as [ds srv [] mi wm mr ri wr res]; try reflexivity.
  unfold next_task_MAPPING.
  cbv [bind get modify ret raise attr getitem random_choice state_of]; simpl.
  destruct mi as [[|k rest]|]; simpl; [| |done].
  - destruct wm as [w|]; simpl; [|done].
    destruct (decide (0 < size w)).
    + destruct (elements w !! _); simpl; [|done].
      destruct (ds !! _); simpl; done.
    + destruct mr; simpl; done.
  - destruct wm as [w|]; simpl; [|done].
    destruct (ds !! k); simpl; done.
Qed.

(** What [next_task] returns, from any state: a MAP task whose key is
    in the map working set afterwards and whose value is the one the
    dataset has for it, or a REDUCE task whose key is in the reduce
    working set afterwards, or the disconnect command in the FINISHED
    phase with the listening socket closed. *)
Theorem next_task_reply_shape rnd tm c d tm' :
  next_task rnd tm = (Ret (Some (c, d)), tm') →
  (c = COMMAND.map
   ∧ ∃ k v w, d = Some (MapData k v) ∧ datasource tm !! k = Some v
              ∧ working_maps tm' = Some w ∧ k ∈ w)
  ∨ (c = COMMAND.reduce
     ∧ ∃ k vs w, d = Some (ReduceData k vs)
                 ∧ working_reduces tm' = Some w ∧ k ∈ w)
  ∨ (c = COMMAND.disconnect ∧ d = None ∧ state tm' = FINISHED
     ∧ listening (server tm') = false).
Proof.
  rewrite next_task_chain, next_task_START_spec. unfold state_of at 1.
  simpl. set (tm1 := if decide (state tm = START) then _ else tm).
  assert (Hds1 : datasource tm1 = datasource tm).
  { unfold tm1. destruct (decide _); by destruct tm. }
  destruct (next_task_MAPPING rnd tm1) as [[[t|]|e] tm2] eqn:E2; [| |done].
  - destruct t as [c0 d0]. intros [= <- <- <-]. left.
    destruct (decide (state tm1 = MAPPING)) as [Hst1|Hst1].
    + destruct (next_task_MAPPING_reply rnd tm1 c0 d0 tm2 Hst1 E2)
        as (-> & k & v & w & -> & Hv & Hw & Hin).
      split; [done|]. exists k, v, w. by rewrite <- Hds1.
    + by rewrite next_task_MAPPING_other in E2.
  - destruct (next_task_REDUCING rnd tm2) as [[[t|]|e] tm3] eqn:E3; [| |done].
    + destruct t as [c0 d0]. intros [= <- <- <-]. right. left.
      destruct (decide (state tm2 = REDUCING)) as [Hst2|Hst2].
      * destruct (next_task_REDUCING_reply rnd tm2 c0 d0 tm3 Hst2 E3)
          as (-> & k & vs & w & -> & Hw & Hin).
        split; [done|]. by exists k, vs, w.
      * by rewrite next_task_REDUCING_other in E3.
    + intros Hfin. right. right.
      destruct tm3 as [? ? [] ? ? ? ? ? ?]; simpl in Hfin; try done.
      by injection Hfin as <- <- <-.
Qed.

(** A task manager that has only been driven through its three entry
    points always has a command to return: from a fresh one, after any
    sequence of calls with any reports, [next_task] neither raises nor
    falls off its end. *)
Theorem next_task_always_returns (ds : gmap K V) (srv : Server) calls rnd :
  ∃ c d tm',
    next_task rnd (do_calls calls (TaskManager_init ds srv))
    = (Ret (Some (c, d)), tm').
Proof.
  destruct (next_task_inv rnd _ (do_calls_inv calls _ (tm_inv_init ds srv)))
    as ([c d] & tm' & Hnext & _). by exists c, d, tm'.
Qed.

(** A report that arrives before any task was requested finds no working
    set: [map_done] and [reduce_done] on a fresh task manager raise
    [AttributeError] and change nothing. *)
Theorem report_before_first_task_raises (ds : gmap K V) (srv : Server)
    (mdata : K * gmap K2 (list V2)) (rdata : K2 * R) :
  map_done mdata (TaskManager_init ds srv : TaskManager K V K2 V2 R)
  = (Raise AttributeError, TaskManager_init ds srv)
  ∧ reduce_done rdata (TaskManager_init ds srv : TaskManager K V K2 V2 R)
    = (Raise AttributeError, TaskManager_init ds srv).
Proof. split; reflexivity. Qed.

(** With an empty dataset the first request goes through all phases at
    once: the answer is the disconnect command, the phase is FINISHED,
    the final results are empty and the listening socket is closed. *)
Theorem empty_dataset_finishes_at_once (srv : Server) rnd :
  ∃ tm',
    next_task rnd (TaskManager_init (K2:=K2) (V2:=V2) (R:=R)
                     (∅ : gmap K V) srv)
    = (Ret (Some (COMMAND.disconnect, None)), tm')
    ∧ state tm' = FINISHED ∧ results tm' = Some ∅
    ∧ working_maps tm' = Some ∅ ∧ working_reduces tm' = Some ∅
    ∧ listening (server tm') = false.
Proof.
  eexists. split.
  - rewrite next_task_start by done. simpl.
    unfold iter_keys. rewrite map_to_list_empty. simpl.
    rewrite (next_task_to_reducing rnd _ ∅) by done. simpl.
    rewrite map_to_list_empty.
    rewrite next_task_to_finished by done.
    by rewrite next_task_finished.
  - done.
Qed.

End Scheduling_more.

(** ** Frames and grouping *)

Section Codec.

Lemma find_sep_app command rest :
  find_sep command = None →
  find_sep (command +:+ SEPARATOR +:+ rest) = Some (String.length command).
Proof.
  induction command as [|a command IH]; simpl; [done|].
  destruct (Ascii.eqb a ":"); [done|].
  destruct (find_sep command); [done|]. intros _. by rewrite IH.
Qed.

Lemma substring_prefix command rest :
  String.substring 0 (String.length command) (command +:+ rest) = command.
Proof.
  induction command as [|a command IH]; simpl.
  - by destruct rest.
  - by rewrite IH.
Qed.

Lemma substring_suffix command rest :
  String.substring (String.length command + 1)
    (String.length (command +:+ SEPARATOR +:+ rest)
     - (String.length command + 1))
    (command +:+ SEPARATOR +:+ rest)
  = rest.
Proof.
  induction command as [|a command IH]; simpl.
  - by rewrite Nat.sub_0_r, substring_0_length.
  - apply IH.
Qed.

(** [decode_command] splits a header at its first separator: a command
    name without separator followed by the separator and anything is
    decoded to that command and that rest, separators of the rest
    included; a header without separator raises [ValueError]. *)
Theorem decode_command_first_separator {S} (command rest : string) :
  find_sep command = None →
  decode_command (S:=S) (command +:+ SEPARATOR +:+ rest) = ret (command, rest)
  ∧ decode_command (S:=S) command = raise ValueError.
Proof.
  intros Hnone. split.
  - unfold decode_command. rewrite find_sep_app by done.
    by rewrite substring_prefix, substring_suffix.
  - unfold decode_command. by rewrite Hnone.
Qed.

Context {K2 V2 : Type} `{Countable K2}.

Lemma group_step_foldl (ems : list (K2 * V2)) : ∀ acc k,
  foldl group_step acc ems !! k
  = match (filter (λ kv, kv.1 = k) ems).*2 with
    | [] => acc !! k
    | vs => Some (default [] (acc !! k) ++ vs)
    end.
Proof.
  induction ems as [|[k0 v0] ems IH]; intros acc k; simpl; [done|].
  rewrite IH. rewrite filter_cons. simpl.
  assert (Hstep : group_step acc (k0, v0) !! k
                  = if decide (k0 = k)
                    then Some (default [] (acc !! k) ++ [v0])
                    else acc !! k).
  { unfold group_step. simpl. destruct (decide (k0 = k)) as [->|Hne].
    - destruct (acc !! k); by rewrite lookup_insert_eq.
    - destruct (acc !! k0); by rewrite lookup_insert_ne. }
  rewrite Hstep. destruct (decide (k0 = k)) as [->|Hne]; simpl; [|done].
  change (list_fmap (K2 * V2)%type V2 snd (filter (λ kv, kv.1 = k) ems))
    with ((filter (λ kv : K2 * V2, kv.1 = k) ems).*2).
  destruct ((filter (λ kv : K2 * V2, kv.1 = k) ems).*2); [done|].
  by rewrite <- app_assoc.
Qed.

(** The grouping loop of [call_map]: the grouped result has, under every
    key, exactly the values emitted for that key, in the order of
    emission, and no entry for a key that was never emitted. *)
Theorem group_emissions_lookup (ems : list (K2 * V2)) (k : K2) :
  group_emissions ems !! k
  = match (filter (λ kv, kv.1 = k) ems).*2 with
    | [] => None
    | vs => Some vs
    end.
Proof.
  unfold group_emissions. rewrite group_step_foldl, lookup_empty. done.
Qed.

End Codec.

(** ** Frames on a channel of the master *)

Section Master_frames.
Context {K V K2 V2 R : Type} `{Countable K, Countable K2}.
Variable password : string.
Variable hmac_sha1_hex : string → string → string.
Variable pickle_dumps : payload K V K2 V2 R → string.
Variable pickle_loads : string → option (payload K V K2 V2 R).
Variable py_int : string → option Z.
Implicit Types (sc : ServerChannel K V K2 V2 R).

Notation receive_frame :=
  (ServerChannel_receive password hmac_sha1_hex pickle_dumps pickle_loads
     py_int).

(** A frame on a channel that is not authenticated, once decoded. *)
Lemma master_receive_unauthed env message sc command arg :
  auth (channel_proto sc) ≠ Some "Done" →
  buffer (channel_proto sc) = [] →
  decode_command (S:=ServerChannel K V K2 V2 R) message
  = ret (command, arg) →
  receive_frame env message sc
  = (exec process_unauthed_command password hmac_sha1_hex pickle_dumps
            channel_proto set_channel_proto ServerChannel_handle_close
            (ServerChannel_post_auth_init pickle_dumps) env command
            (Arg arg);
     zoom channel_proto set_channel_proto (modify (set_buffer [])))
      (set_channel_proto (set_buffer [message] (channel_proto sc)) sc).
Proof.
  intros Hauth Hbuf Hdec.
  set (sc1 := set_channel_proto
                (set_buffer (buffer (channel_proto sc) ++ [message])
                   (channel_proto sc)) sc).
  change (receive_frame env message sc)
    with (ServerChannel_found_terminator password hmac_sha1_hex pickle_dumps
            pickle_loads py_int env sc1).
  unfold ServerChannel_found_terminator.
  rewrite found_terminator_unauthed by done.
  assert (Hmsg : String.concat "" (buffer (channel_proto sc1)) = message).
  { unfold sc1. simpl. by rewrite Hbuf. }
  rewrite Hmsg, Hdec. unfold sc1. rewrite Hbuf. simpl.
  unfold bind at 2. reflexivity.
Qed.

Lemma master_unknown_command env command data sc :
  command ≠ COMMAND.challenge → command ≠ COMMAND.auth →
  command ≠ COMMAND.disconnect →
  process_unauthed_command password hmac_sha1_hex pickle_dumps
    channel_proto set_channel_proto ServerChannel_handle_close
    (ServerChannel_post_auth_init pickle_dumps) env command data sc
  = (Ret tt,
     set_channel_proto
       (set_trace (trace (channel_proto sc) ++ [LogCritical; Close])
          (set_connected false (channel_proto sc))) sc).
Proof.
  intros H1 H2 H3. unfold process_unauthed_command, try_except.
  assert (Hd : dispatch
                 [(COMMAND.challenge,
                   respond_to_challenge password hmac_sha1_hex pickle_dumps
                     channel_proto set_channel_proto
                     (ServerChannel_post_auth_init pickle_dumps) env);
                  (COMMAND.auth,
                   verify_auth password hmac_sha1_hex channel_proto
                     set_channel_proto ServerChannel_handle_close);
                  (COMMAND.disconnect, λ _ _, ServerChannel_handle_close)]
                 command data sc = (Raise KeyError, sc)).
  { simpl. by rewrite !decide_False by done. }
  rewrite Hd. simpl.
  unfold bind, zoom, emit, modify, ServerChannel_handle_close, close, zoom,
    bind, emit, modify. simpl.
  by rewrite <- app_assoc.
Qed.

(** Before authentication the master fails closed: a frame whose command
    is not [challenge], [auth] or [disconnect] (a done-report, say) is
    logged as unknown and closes the channel; nothing is pushed and the
    task manager is not touched. *)
Theorem unauthed_unknown_command_closes env message sc command arg :
  auth (channel_proto sc) ≠ Some "Done" →
  buffer (channel_proto sc) = [] →
  decode_command (S:=ServerChannel K V K2 V2 R) message
  = ret (command, arg) →
  command ≠ COMMAND.challenge → command ≠ COMMAND.auth →
  command ≠ COMMAND.disconnect →
  receive_frame env message sc
  = (Ret tt,
     {| channel_proto :=
          {| term := term (channel_proto sc); buffer := [];
             auth := auth (channel_proto sc);
             mid_command := mid_command (channel_proto sc);
             connected := false;
             trace := trace (channel_proto sc) ++ [LogCritical; Close] |};
        taskmanager := taskmanager sc |}).
Proof.
  intros Hauth Hbuf Hdec H1 H2 H3.
  rewrite (master_receive_unauthed env message sc command arg) by done.
  unfold bind at 1. rewrite master_unknown_command by done.
  reflexivity.
Qed.

Lemma decode_auth {S} (s : string) :
  decode_command (S:=S) ("auth:" +:+ s) = ret ("auth", s).
Proof.
  unfold decode_command. simpl. by rewrite Nat.sub_0_r, substring_0_length.
Qed.

Lemma master_auth_frame env s sc :
  auth (channel_proto sc) ≠ Some "Done" →
  buffer (channel_proto sc) = [] →
  receive_frame env ("auth:" +:+ s) sc
  = (Ret tt,
     {| channel_proto :=
          if decide (s = hmac_sha1_hex password
                           (default "" (auth (channel_proto sc))))
          then {| term := term (channel_proto sc); buffer := [];
                  auth := Some "Done";
                  mid_command := mid_command (channel_proto sc);
                  connected := connected (channel_proto sc);
                  trace := trace (channel_proto sc) |}
          else {| term := term (channel_proto sc); buffer := [];
                  auth := auth (channel_proto sc);
                  mid_command := mid_command (channel_proto sc);
                  connected := false;
                  trace := trace (channel_proto sc) ++ [Close] |};
        taskmanager := taskmanager sc |}).
Proof.
  intros Hauth Hbuf.
  rewrite (master_receive_unauthed env _ sc "auth" s Hauth Hbuf
             (decode_auth s)).
  unfold bind at 1. unfold process_unauthed_command, try_except.
  match goal with
  | |- context [dispatch ?hs ?c0 ?d0 ?st] =>
      change (dispatch hs c0 d0 st)
        with (verify_auth password hmac_sha1_hex channel_proto
                set_channel_proto ServerChannel_handle_close c0 d0 st)
  end.
  unfold verify_auth, bind, get. simpl.
  destruct (decide (s = _)); reflexivity.
Qed.

(** An [auth] frame on a channel of the master that is not authenticated:
    when the argument is the keyed hash of the nonce the channel issued,
    the channel becomes authenticated; otherwise it is closed.  In both
    cases nothing is pushed (no task yet) and the task manager is not
    touched. *)
Theorem auth_frame_verdict env s sc :
  auth (channel_proto sc) ≠ Some "Done" →
  buffer (channel_proto sc) = [] →
  receive_frame env ("auth:" +:+ s) sc
  = (Ret tt,
     {| channel_proto :=
          if decide (s = hmac_sha1_hex password
                           (default "" (auth (channel_proto sc))))
          then {| term := term (channel_proto sc); buffer := [];
                  auth := Some "Done";
                  mid_command := mid_command (channel_proto sc);
                  connected := connected (channel_proto sc);
                  trace := trace (channel_proto sc) |}
          else {| term := term (channel_proto sc); buffer := [];
                  auth := auth (channel_proto sc);
                  mid_command := mid_command (channel_proto sc);
                  connected := false;
                  trace := trace (channel_proto sc) ++ [Close] |};
        taskmanager := taskmanager sc |}).
Proof. apply master_auth_frame. Qed.

(** The proof the master sends in answer to a challenge is the keyed
    hash of the challenge, and the proof it accepts is the keyed hash of
    its own nonce: a peer that sends the master's nonce back as its
    challenge is given the very proof the master then accepts, and ends
    up authenticated without having used the password. *)
Theorem own_nonce_reflected env1 env2 sc nonce :
  auth (channel_proto sc) = Some nonce → nonce ≠ "Done" →
  buffer (channel_proto sc) = [] →
  tm_inv (taskmanager sc) →
  ∃ sc1 sc2,
    receive_frame env1 ("challenge:" +:+ nonce) sc = (Ret tt, sc1)
    ∧ Push (wire_frame pickle_dumps COMMAND.auth None
              (Some (hmac_sha1_hex password nonce)))
      ∈ trace (channel_proto sc1)
    ∧ receive_frame env2 ("auth:" +:+ hmac_sha1_hex password nonce) sc1
      = (Ret tt, sc2)
    ∧ auth (channel_proto sc2) = Some "Done"
    ∧ connected (channel_proto sc2) = connected (channel_proto sc).
Proof.
  intros Hauth Hnonce Hbuf Hinv.
  assert (Hnd : auth (channel_proto sc) ≠ Some "Done") by congruence.
  destruct (next_task_inv (rnd env1) _ Hinv)
    as ([command pl] & tm' & Hnext & _).
  eexists _, _. split.
  { by apply (unauthed_challenge_gets_next_task password hmac_sha1_hex
                pickle_dumps pickle_loads py_int env1 nonce sc command pl
                tm'). }
  split.
  { simpl. apply elem_of_app. right. by left. }
  split.
  { rewrite master_auth_frame; [reflexivity|by simpl|done]. }
  simpl. rewrite Hauth. simpl. by rewrite decide_True.
Qed.


(** The payload of a map report on an authenticated channel: it is
    unpickled, the reader goes back to lines, the report goes to the task
    manager, and the next task is pushed on the same channel. *)
Theorem mapdone_payload_recorded_then_next_task env pdata sc k res tm1
    command pl tm2 :
  auth (channel_proto sc) = Some "Done" →
  mid_command (channel_proto sc) = Some COMMAND.mapdone →
  buffer (channel_proto sc) = [] →
  pickle_loads pdata = Some (MapResult k res) →
  map_done (k, res) (taskmanager sc) = (Ret tt, tm1) →
  next_task (rnd env) tm1 = (Ret (Some (command, pl)), tm2) →
  receive_frame env pdata sc
  = (Ret tt,
     {| channel_proto :=
          {| term := TermNewline; buffer := [];
             auth := Some "Done"; mid_command := None;
             connected := connected (channel_proto sc);
             trace := trace (channel_proto sc)
                      ++ [Loads pdata; SetTerminator TermNewline;
                          Push (wire_frame pickle_dumps command pl None)] |};
        taskmanager := tm2 |}).
Proof.
  intros Hauth Hmid Hbuf Hloads Hdone Hnext.
  set (sc1 := set_channel_proto
                (set_buffer (buffer (channel_proto sc) ++ [pdata])
                   (channel_proto sc)) sc).
  change (receive_frame env pdata sc)
    with (ServerChannel_found_terminator password hmac_sha1_hex pickle_dumps
            pickle_loads py_int env sc1).
  unfold ServerChannel_found_terminator, found_terminator.
  unfold bind at 1, get at 1.
  rewrite !decide_False
    by (unfold sc1; simpl; rewrite ?Hauth, ?Hmid; (by intros []) || done).
  assert (Hmsg : String.concat "" (buffer (channel_proto sc1)) = pdata).
  { unfold sc1. simpl. by rewrite Hbuf. }
  rewrite Hmsg, Hloads.
  set (p2 := {| term := TermNewline; buffer := [pdata];
                auth := Some "Done"; mid_command := None;
                connected := connected (channel_proto sc);
                trace := trace (channel_proto sc)
                         ++ [Loads pdata; SetTerminator TermNewline] |}).
  set (sc2 := {| channel_proto := p2; taskmanager := taskmanager sc |}).
  assert (Hproc :
    ServerChannel_process_command password hmac_sha1_hex pickle_dumps env
      COMMAND.mapdone (Obj (MapResult k res)) sc2
    = (Ret tt,
       {| channel_proto :=
            set_trace (trace p2
                       ++ [Push (wire_frame pickle_dumps command pl None)]) p2;
          taskmanager := tm2 |})).
  { unfold ServerChannel_process_command, try_except.
    match goal with
    | |- context [dispatch ?hs ?c0 ?d0 ?st] =>
        change (dispatch hs c0 d0 st)
          with (ServerChannel_map_done pickle_dumps env c0 d0 st)
    end.
    unfold ServerChannel_map_done.
    rewrite (bind_run _ _ sc2 tt (set_taskmanager tm1 sc2))
      by (unfold zoom; simpl; by rewrite Hdone).
    by rewrite (start_new_task_run pickle_dumps env
                  (set_taskmanager tm1 sc2) command pl tm2). }
  unfold bind at 1.
  rewrite (bind_run _ _ sc1 tt sc1) by reflexivity.
  unfold bind at 1. unfold self at 1, zoom at 1, emit at 1, modify at 1.
  unfold bind at 1. unfold ret at 1.
  unfold bind at 1. unfold self at 1, zoom at 1, set_terminator at 1.
  unfold bind at 1, modify at 1, emit at 1, modify at 1.
  unfold bind at 1, get at 1.
  unfold bind at 1. unfold self at 1, zoom at 1, modify at 1.
  match goal with
  | |- context [ServerChannel_process_command _ _ _ _ ?c0 _ ?st] =>
      replace st with sc2;
      [replace c0 with COMMAND.mapdone|]
  end.
  - rewrite Hproc. unfold self, zoom, modify, p2. simpl.
    by rewrite <- app_assoc.
  - unfold sc1. simpl. by rewrite Hmid.
  - unfold sc2, p2, sc1, set_channel_proto, set_mid_command, set_trace,
      set_term, set_buffer. simpl.
    rewrite Hbuf, Hauth, <- app_assoc. reflexivity.
Qed.

End Master_frames.

(** ** Frames on the worker *)

Section Worker_frames.
Context {K V K2 V2 R : Type} `{Countable K, Countable K2}.
Variable password : string.
Variable hmac_sha1_hex : string → string → string.
Variable pickle_dumps : payload K V K2 V2 R → string.
Variable pickle_loads : string → option (payload K V K2 V2 R).
Variable py_int : string → option Z.
Variable Mapper_Map : K → V → list (K2 * V2) * option exn.
Variable Reducer_Reduce : K2 → list V2 → outcome R.

Notation receive_frame :=
  (Client_receive password hmac_sha1_hex pickle_dumps pickle_loads py_int
     Mapper_Map Reducer_Reduce).

(** The first challenge a worker receives: it answers with the keyed hash
    of the challenge and, having issued no challenge of its own so far,
    sends one with a fresh nonce, which it keeps. *)
Theorem worker_answers_and_challenges env s (c : Client) :
  auth (client_proto c) = None →
  buffer (client_proto c) = [] →
  receive_frame env ("challenge:" +:+ s) c
  = (Ret tt,
     {| client_proto :=
          {| term := term (client_proto c); buffer := [];
             auth := Some (urandom_hex env);
             mid_command := mid_command (client_proto c);
             connected := connected (client_proto c);
             trace := trace (client_proto c)
                      ++ [Push (wire_frame pickle_dumps COMMAND.auth None
                                  (Some (hmac_sha1_hex password s)));
                          Push (wire_frame pickle_dumps COMMAND.challenge
                                  None (Some (urandom_hex env)))] |};
        mapper := mapper c; reducer := reducer c |}).
Proof.
  intros Hauth Hbuf.
  set (c1 := set_client_proto
               (set_buffer (buffer (client_proto c) ++ ["challenge:" +:+ s])
                  (client_proto c)) c).
  change (receive_frame env ("challenge:" +:+ s) c)
    with (Client_found_terminator password hmac_sha1_hex pickle_dumps
            pickle_loads py_int Mapper_Map Reducer_Reduce env c1).
  unfold Client_found_terminator.
  rewrite found_terminator_unauthed
    by (unfold c1; simpl; by rewrite Hauth).
  assert (Hmsg : String.concat "" (buffer (client_proto c1))
                 = "challenge:" +:+ s).
  { unfold c1. simpl. by rewrite Hbuf. }
  rewrite Hmsg, decode_challenge.
  set (c2 := set_client_proto
               (set_trace
                  (trace (client_proto c1)
                   ++ [Push (wire_frame pickle_dumps COMMAND.auth None
                               (Some (hmac_sha1_hex password s)))])
                  (client_proto c1)) c1).
  set (c3 := set_client_proto
               (set_trace
                  (trace (client_proto c2)
                   ++ [Push (wire_frame pickle_dumps COMMAND.challenge None
                               (Some (urandom_hex env)))])
                  (set_auth (Some (urandom_hex env)) (client_proto c2))) c2).
  assert (Hsend :
    zoom client_proto set_client_proto
      (send_command pickle_dumps COMMAND.auth None
         (Some (hmac_sha1_hex password s))) c1 = (Ret tt, c2)).
  { unfold zoom. by rewrite send_command_frame. }
  assert (Hresp :
    respond_to_challenge password hmac_sha1_hex pickle_dumps client_proto
      set_client_proto (Client_post_auth_init pickle_dumps) env
      "challenge" (Arg s) c1 = (Ret tt, c3)).
  { unfold respond_to_challenge.
    rewrite (bind_run _ _ c1 s c1) by reflexivity.
    rewrite (bind_run _ _ c1 tt c2) by exact Hsend.
    unfold Client_post_auth_init.
    rewrite (bind_run _ _ c2 c2 c2) by reflexivity.
    assert (Hauth2 : auth (client_proto c2) = None)
      by (unfold c2, c1; simpl; done).
    rewrite Hauth2. unfold zoom, send_challenge.
    rewrite (bind_run _ _ (client_proto c2) tt
               (set_auth (Some (urandom_hex env)) (client_proto c2)))
      by reflexivity.
    by rewrite send_command_frame. }
  rewrite (bind_run _ _ c1 tt c3).
  - unfold zoom, modify, c3, c2, c1, set_client_proto, set_trace, set_auth,
      set_buffer. simpl. by rewrite <- app_assoc.
  - rewrite (bind_run _ _ c1 ("challenge", s) c1) by reflexivity.
    unfold process_unauthed_command, try_except.
    match goal with
    | |- context [dispatch ?hs ?c0 ?d0 ?st] =>
        change (dispatch hs c0 d0 st)
          with (respond_to_challenge password hmac_sha1_hex pickle_dumps
                  client_proto set_client_proto
                  (Client_post_auth_init pickle_dumps) env c0 d0 st)
    end.
    simpl. by rewrite Hresp.
Qed.

(** The payload of a MAP task on an authenticated worker whose mapper
    does not raise: it is unpickled, the reader goes back to lines, the
    mapper exists afterwards, and one [mapdone] frame is pushed, carrying
    the task key and the emissions grouped by key. *)
Theorem map_task_executed_and_reported env pdata (c : Client) k v ems :
  auth (client_proto c) = Some "Done" →
  mid_command (client_proto c) = Some COMMAND.map →
  buffer (client_proto c) = [] →
  pickle_loads pdata = Some (MapData k v) →
  Mapper_Map k v = (ems, None) →
  receive_frame env pdata c
  = (Ret tt,
     {| client_proto :=
          {| term := TermNewline; buffer := [];
             auth := Some "Done"; mid_command := None;
             connected := connected (client_proto c);
             trace := trace (client_proto c)
                      ++ [Loads pdata; SetTerminator TermNewline;
                          Push (wire_frame pickle_dumps COMMAND.mapdone
                                  (Some (MapResult k (group_emissions ems)))
                                  None)] |};
        mapper := Some tt; reducer := reducer c |}).
Proof.
  intros Hauth Hmid Hbuf Hloads HMap.
  set (c1 := set_client_proto
               (set_buffer (buffer (client_proto c) ++ [pdata])
                  (client_proto c)) c).
  change (receive_frame env pdata c)
    with (Client_found_terminator password hmac_sha1_hex pickle_dumps
            pickle_loads py_int Mapper_Map Reducer_Reduce env c1).
  unfold Client_found_terminator, found_terminator.
  unfold bind at 1, get at 1.
  rewrite !decide_False
    by (unfold c1; simpl; rewrite ?Hauth, ?Hmid; (by intros []) || done).
  assert (Hmsg : String.concat "" (buffer (client_proto c1)) = pdata).
  { unfold c1. simpl. by rewrite Hbuf. }
  rewrite Hmsg, Hloads.
  set (p2 := {| term := TermNewline; buffer := [pdata];
                auth := Some "Done"; mid_command := None;
                connected := connected (client_proto c);
                trace := trace (client_proto c)
                         ++ [Loads pdata; SetTerminator TermNewline] |}).
  set (c2 := {| client_proto := p2; mapper := mapper c;
                reducer := reducer c |}).
  assert (Hproc :
    Client_process_command password hmac_sha1_hex pickle_dumps Mapper_Map
      Reducer_Reduce env COMMAND.map (Obj (MapData k v)) c2
    = (Ret tt,
       {| client_proto :=
            set_trace
              (trace p2
               ++ [Push (wire_frame pickle_dumps COMMAND.mapdone
                           (Some (MapResult k (group_emissions ems)))
                           None)]) p2;
          mapper := Some tt; reducer := reducer c |})).
  { unfold Client_process_command, try_except.
    match goal with
    | |- context [dispatch ?hs ?c0 ?d0 ?st] =>
        change (dispatch hs c0 d0 st)
          with (call_map pickle_dumps Mapper_Map c0 d0 st)
    end.
    unfold call_map. rewrite HMap.
    rewrite (bind_run _ _ c2 tt
               {| client_proto := p2; mapper := Some tt;
                  reducer := reducer c |}).
    - unfold zoom. by rewrite send_command_frame.
    - unfold bind, get, modify, ret. simpl.
      destruct (decide (mapper c = None)) as [_|Hm]; [done|].
      destruct (mapper c) as [[]|]; done. }
  unfold bind at 1.
  rewrite (bind_run _ _ c1 tt c1) by reflexivity.
  unfold bind at 1. unfold self at 1, zoom at 1, emit at 1, modify at 1.
  unfold bind at 1. unfold ret at 1.
  unfold bind at 1. unfold self at 1, zoom at 1, set_terminator at 1.
  unfold bind at 1, modify at 1, emit at 1, modify at 1.
  unfold bind at 1, get at 1.
  unfold bind at 1. unfold self at 1, zoom at 1, modify at 1.
  match goal with
  | |- context [Client_process_command _ _ _ _ _ _ ?c0 _ ?st] =>
      replace st with c2;
      [replace c0 with COMMAND.map|]
  end.
  - rewrite Hproc. unfold self, zoom, modify, p2. simpl.
    by rewrite <- app_assoc.
  - unfold c1. simpl. by rewrite Hmid.
  - unfold c2, p2, c1, set_client_proto, set_mid_command, set_trace,
      set_term, set_buffer. simpl.
    rewrite Hbuf, Hauth, <- app_assoc. reflexivity.
Qed.

End Worker_frames.

(** ** The properties at concrete inputs *)

Lemma straggler_reissue_witness :
  state Demo.straggling_taskmanager = MAPPING
  ∧ ∃ key v,
      next_task 0 Demo.straggling_taskmanager
      = (Ret (Some (COMMAND.map, Some (MapData key v))),
         Demo.straggling_taskmanager)
      ∧ key = "b".
Proof.
  split; [reflexivity|].
  destruct (straggler_reissue 0 Demo.straggling_taskmanager {["b"]}
              eq_refl eq_refl eq_refl) as [Hreissue _].
  - intros k Hk. apply elem_of_singleton in Hk. subst k.
    exists "y". vm_compute. reflexivity.
  - destruct Hreissue as (key & v & Hnext & _ & _ & _ & Hone).
    + intros Hempty. apply (f_equal size) in Hempty. vm_compute in Hempty.
      discriminate.
    + exists key, v. split; [exact Hnext|]. by apply Hone.
Defined.

Lemma map_done_accepted_appends_witness :
  "b" ∈ ({["b"]} : gset string)
  ∧ ∃ mr',
      map_done ("b", {["y" := [1]]}) Demo.straggling_taskmanager
      = (Ret tt,
         set_working_maps ({["b"]} ∖ {["b"]})
           (set_map_results mr' Demo.straggling_taskmanager))
      ∧ mr' !! "y" = Some [1; 1] ∧ mr' !! "x" = Some [1; 1].
Proof.
  assert (Hin : "b" ∈ ({["b"]} : gset string)) by (by apply elem_of_singleton).
  split; [exact Hin|].
  destruct (map_done_accepted_appends Demo.straggling_taskmanager {["b"]}
              (<["x" := [1; 1]]> {["y" := [1]]}) ("b", {["y" := [1]]})
              eq_refl eq_refl Hin) as (mr' & Hdone & Hmr').
  exists mr'. split; [exact Hdone|].
  split; rewrite Hmr'; vm_compute; reflexivity.
Defined.

Lemma reduce_done_overwrites_witness :
  reduce_done ("x", 2) Demo.reducing_taskmanager
  = (Ret tt,
     set_working_reduces ({["x"]} ∖ {["x"]})
       (set_results (<["x" := 2]> {["x" := 7]}) Demo.reducing_taskmanager))
  ∧ reduce_done ("y", 2) Demo.reducing_taskmanager
    = (Ret tt, Demo.reducing_taskmanager).
Proof.
  destruct (reduce_done_overwrites Demo.reducing_taskmanager {["x"]}
              ("x", 2) eq_refl) as [Hin _].
  destruct (reduce_done_overwrites Demo.reducing_taskmanager {["x"]}
              ("y", 2) eq_refl) as [_ Hout].
  split.
  - apply (Hin ltac:(by apply elem_of_singleton) {["x" := 7]} eq_refl).
  - apply Hout. intros Hy. apply elem_of_singleton in Hy. discriminate.
Defined.


Lemma next_task_reply_shape_witness :
  ∃ k v w,
    k = "b" ∧ datasource Demo.straggling_taskmanager !! k = Some v
    ∧ working_maps Demo.straggling_taskmanager = Some w ∧ k ∈ w.
Proof.
  assert (Hnext : next_task 0 Demo.straggling_taskmanager
                  = (Ret (Some (COMMAND.map, Some (MapData "b" "y"))),
                     Demo.straggling_taskmanager))
    by (vm_compute; reflexivity).
  destruct (next_task_reply_shape 0 Demo.straggling_taskmanager _ _ _ Hnext)
    as [(_ & k & v & w & Hd & Hv & Hw & Hin)
       |[(Hc & _)|(Hc & _)]]; [|discriminate Hc|discriminate Hc].
  injection Hd as <- <-. exists "b", "y", w. done.
Defined.

Lemma decode_command_first_separator_witness :
  decode_command (S:=unit) ("mapdone" +:+ SEPARATOR +:+ "12:7")
  = ret ("mapdone", "12:7")
  ∧ decode_command (S:=unit) "mapdone" = raise ValueError.
Proof.
  apply (decode_command_first_separator "mapdone" "12:7"). reflexivity.
Defined.

Lemma unauthed_unknown_command_closes_witness :
  ServerChannel_receive Demo.password Demo.hmac_sha1_hex Demo.pickle_dumps
    Demo.pickle_loads Demo.py_int Demo.env0 "mapdone:3" Demo.fresh_channel
  = (Ret tt,
     {| channel_proto :=
          {| term := term (channel_proto Demo.fresh_channel); buffer := [];
             auth := auth (channel_proto Demo.fresh_channel);
             mid_command := mid_command (channel_proto Demo.fresh_channel);
             connected := false;
             trace := trace (channel_proto Demo.fresh_channel)
                      ++ [LogCritical; Close] |};
        taskmanager := taskmanager Demo.fresh_channel |}).
Proof.
  apply (unauthed_unknown_command_closes Demo.password Demo.hmac_sha1_hex
           Demo.pickle_dumps Demo.pickle_loads Demo.py_int Demo.env0
           "mapdone:3" Demo.fresh_channel "mapdone" "3").
  - vm_compute. discriminate.
  - reflexivity.
  - reflexivity.
  - discriminate.
  - discriminate.
  - discriminate.
Defined.

Lemma auth_frame_verdict_witness :
  ServerChannel_receive Demo.password Demo.hmac_sha1_hex Demo.pickle_dumps
    Demo.pickle_loads Demo.py_int Demo.env0 ("auth:" +:+ "guess")
    Demo.fresh_channel
  = (Ret tt,
     {| channel_proto :=
          if decide ("guess"
                     = Demo.hmac_sha1_hex Demo.password
                         (default ""
                            (auth (channel_proto Demo.fresh_channel))))
          then {| term := term (channel_proto Demo.fresh_channel);
                  buffer := []; auth := Some "Done";
                  mid_command := mid_command (channel_proto Demo.fresh_channel);
                  connected := connected (channel_proto Demo.fresh_channel);
                  trace := trace (channel_proto Demo.fresh_channel) |}
          else {| term := term (channel_proto Demo.fresh_channel);
                  buffer := [];
                  auth := auth (channel_proto Demo.fresh_channel);
                  mid_command := mid_command (channel_proto Demo.fresh_channel);
                  connected := false;
                  trace := trace (channel_proto Demo.fresh_channel)
                           ++ [Close] |};
        taskmanager := taskmanager Demo.fresh_channel |}).
Proof.
  apply (auth_frame_verdict Demo.password Demo.hmac_sha1_hex
           Demo.pickle_dumps Demo.pickle_loads Demo.py_int Demo.env0
           "guess" Demo.fresh_channel).
  - vm_compute. discriminate.
  - reflexivity.
Defined.

Lemma own_nonce_reflected_witness :
  ∃ sc1 sc2,
    ServerChannel_receive Demo.password Demo.hmac_sha1_hex Demo.pickle_dumps
      Demo.pickle_loads Demo.py_int Demo.env0 ("challenge:" +:+ "c0ffee")
      Demo.fresh_channel = (Ret tt, sc1)
    ∧ Push (wire_frame Demo.pickle_dumps COMMAND.auth None
              (Some (Demo.hmac_sha1_hex Demo.password "c0ffee")))
      ∈ trace (channel_proto sc1)
    ∧ ServerChannel_receive Demo.password Demo.hmac_sha1_hex
        Demo.pickle_dumps Demo.pickle_loads Demo.py_int Demo.env0
        ("auth:" +:+ Demo.hmac_sha1_hex Demo.password "c0ffee") sc1
      = (Ret tt, sc2)
    ∧ auth (channel_proto sc2) = Some "Done"
    ∧ connected (channel_proto sc2)
      = connected (channel_proto Demo.fresh_channel).
Proof.
  apply (own_nonce_reflected Demo.password Demo.hmac_sha1_hex
           Demo.pickle_dumps Demo.pickle_loads Demo.py_int Demo.env0
           Demo.env0 Demo.fresh_channel "c0ffee").
  - reflexivity.
  - discriminate.
  - reflexivity.
  - apply tm_inv_init.
Defined.


Lemma mapdone_payload_recorded_then_next_task_witness :
  ServerChannel_receive Demo.password Demo.hmac_sha1_hex Demo.pickle_dumps
    Demo.pickle_loads Demo.py_int Demo.env0 "Rb"
    Demo.channel_awaiting_mapdone
  = (Ret tt,
     {| channel_proto :=
          {| term := TermNewline; buffer := [];
             auth := Some "Done"; mid_command := None;
             connected :=
               connected (channel_proto Demo.channel_awaiting_mapdone);
             trace := trace (channel_proto Demo.channel_awaiting_mapdone)
                      ++ [Loads "Rb"; SetTerminator TermNewline;
                          Push (wire_frame Demo.pickle_dumps COMMAND.reduce
                                  (Some (ReduceData "y" [1])) None)] |};
        taskmanager :=
          state_of
            (next_task 0
               (state_of (map_done ("b", ∅) Demo.straggling_taskmanager)))
     |}).
Proof.
  apply (mapdone_payload_recorded_then_next_task Demo.password
           Demo.hmac_sha1_hex Demo.pickle_dumps Demo.pickle_loads
           Demo.py_int Demo.env0 "Rb" Demo.channel_awaiting_mapdone "b" ∅
           (state_of (map_done ("b", ∅) Demo.straggling_taskmanager))).
  - reflexivity.
  - reflexivity.
  - reflexivity.
  - reflexivity.
  - vm_compute. reflexivity.
  - vm_compute. reflexivity.
Defined.

Lemma worker_answers_and_challenges_witness :
  Client_receive Demo.password Demo.hmac_sha1_hex Demo.pickle_dumps
    Demo.pickle_loads Demo.py_int Demo.failing_Map Demo.failing_Reduce
    Demo.env0 ("challenge:" +:+ "abc") Client_init
  = (Ret tt,
     {| client_proto :=
          {| term := term (client_proto Client_init); buffer := [];
             auth := Some (urandom_hex Demo.env0);
             mid_command := mid_command (client_proto Client_init);
             connected := connected (client_proto Client_init);
             trace := trace (client_proto Client_init)
                      ++ [Push (wire_frame Demo.pickle_dumps COMMAND.auth
                                  None
                                  (Some (Demo.hmac_sha1_hex Demo.password
                                           "abc")));
                          Push (wire_frame Demo.pickle_dumps
                                  COMMAND.challenge None
                                  (Some (urandom_hex Demo.env0)))] |};
        mapper := mapper Client_init; reducer := reducer Client_init |}).
Proof.
  apply (worker_answers_and_challenges Demo.password Demo.hmac_sha1_hex
           Demo.pickle_dumps Demo.pickle_loads Demo.py_int Demo.failing_Map
           Demo.failing_Reduce Demo.env0 "abc" Client_init).
  - reflexivity.
  - reflexivity.
Defined.

Lemma map_task_executed_and_reported_witness :
  Client_receive Demo.password Demo.hmac_sha1_hex Demo.pickle_dumps
    Demo.pickle_loads Demo.py_int Demo.key_Map Demo.failing_Reduce
    Demo.env0 "Ta" Demo.client_awaiting_map
  = (Ret tt,
     {| client_proto :=
          {| term := TermNewline; buffer := [];
             auth := Some "Done"; mid_command := None;
             connected := connected (client_proto Demo.client_awaiting_map);
             trace := trace (client_proto Demo.client_awaiting_map)
                      ++ [Loads "Ta"; SetTerminator TermNewline;
                          Push (wire_frame Demo.pickle_dumps COMMAND.mapdone
                                  (Some (MapResult "a"
                                           (group_emissions [("a", 1)])))
                                  None)] |};
        mapper := Some tt; reducer := reducer Demo.client_awaiting_map |}).
Proof.
  apply (map_task_executed_and_reported Demo.password Demo.hmac_sha1_hex
           Demo.pickle_dumps Demo.pickle_loads Demo.py_int Demo.key_Map
           Demo.failing_Reduce Demo.env0 "Ta" Demo.client_awaiting_map
           "a" "" [("a", 1)]).
  - reflexivity.
  - reflexivity.
  - reflexivity.
  - reflexivity.
  - reflexivity.
Defined.
